(** * Dense matrices, Armijo line search and gradient descent (lib.hpp)

    A shallow embedding of [src/lib.hpp]:

    - [double] is IEEE-754 binary64, embedded as Rocq's primitive [float];
    - [unsigned] is a 32-bit integer, embedded as [Z] with the wrap-around
      modulo [2^32] written out ([Unsigned.wrap]);
    - [vector<vector<double>>] is a list of rows, read with stdpp's lookup
      and written with stdpp's insert, the bounds check of [vector::at]
      spelled out in [at_];
    - C++ exceptions are values of [fault], carried by [result];
    - the two [while (true)] loops take a fuel argument and answer [None]
      when the fuel runs out before the loop breaks.

    The text written to [std::cout] and the two counters that only feed it
    are not part of the embedding, but the calls evaluated in order to print
    are, since they can throw. Where C++ leaves the order of evaluation of
    operands open, they are evaluated from left to right. *)

From Stdlib Require Import ZArith Lia String.
From Stdlib Require Import PrimFloat Uint63.
From stdpp Require Import base tactics option list list_numbers.

Local Open Scope Z_scope.

(** ** The [unsigned] type *)

Module Unsigned.

Definition modulus : Z := 2 ^ 32.
Definition UINT_MAX : Z := modulus - 1.

Definition wrap (z : Z) : Z := z mod modulus.

Definition sub (a b : Z) : Z := wrap (a - b).
Definition mul (a b : Z) : Z := wrap (a * b).
Definition succ (a : Z) : Z := wrap (a + 1).

(** [(double) u] for an [unsigned] value [u]: the conversion is exact. *)
Definition to_double (u : Z) : float := PrimFloat.of_uint63 (Uint63.of_Z u).

End Unsigned.

(** ** Exceptions *)

Inductive fault : Type :=
| out_of_range                      (* thrown by [vector::at] *)
| invalid_argument (what : string)  (* thrown by the shape guards *)
| undefined_behaviour               (* integer division by zero, [w[0]] on an empty vector *)
| counter_wraps.                    (* a loop [i <= UINT_MAX]: no normal exit *)

Inductive result (A : Type) : Type :=
| Ok (a : A)
| Throw (e : fault).

Arguments Ok {A} a.
Arguments Throw {A} e.

Definition bind {A B : Type} (r : result A) (k : A -> result B) : result B :=
  match r with
  | Ok a => k a
  | Throw e => Throw e
  end.

Notation "'do' x <- r ; k" := (bind r (fun x => k))
  (at level 10, x name, r at level 100, k at level 200).

(** [w.at(k)]: the index is checked against [w.size()] first. *)
Definition at_ {A : Type} (w : list A) (k : Z) : result A :=
  if bool_decide (0 <= k < Z.of_nat (length w)) then
    match w !! Z.to_nat k with
    | Some a => Ok a
    | None => Throw out_of_range
    end
  else Throw out_of_range.

(** The body of a loop run on each index of [idx] in turn, threading the
    mutated state and stopping at the first exception. *)
Fixpoint for_each {I S : Type} (idx : list I) (body : I -> S -> result S) (s : S)
  : result S :=
  match idx with
  | [] => Ok s
  | i :: rest => do s' <- body i s; for_each rest body s'
  end.

(** [for (unsigned i = lo; i <= hi; ++i) body]. For [hi < UINT_MAX] the
    counter takes the values [lo, ..., hi]. For [hi = UINT_MAX] the
    condition [i <= hi] never fails and the counter wraps: the loop has no
    normal exit, which [counter_wraps] records. *)
Definition for_loop {S : Type} (lo hi : Z) (body : Z -> S -> result S) (s : S)
  : result S :=
  if bool_decide (hi < Unsigned.UINT_MAX)
  then for_each (seqZ lo (hi - lo + 1)) body s
  else Throw counter_wraps.

(** ** class Matrix *)

Module Matrix.

Record t : Type := mk {
  m : Z;                    (* number of lines *)
  n : Z;                    (* number of columns *)
  v : list (list float)     (* rows *)
}.

(** [Matrix()] *)
Definition empty : t := mk 0 0 [].

(** [Matrix(rows, cols, value)] *)
Definition fill (rows cols : Z) (value : float) : t :=
  mk rows cols (replicate (Z.to_nat rows) (replicate (Z.to_nat cols) value)).

(** [Matrix(const vector<double>&)]: a column vector *)
Definition of_vector (w : list float) : t :=
  mk (Z.of_nat (length w)) 1 ((fun x => [x]) <$> w).

(** [Matrix(const vector<vector<double>>&)] *)
Definition of_rows (w : list (list float)) : result t :=
  match w with
  | [] => Throw undefined_behaviour
  | r :: _ => Ok (mk (Z.of_nat (length w)) (Z.of_nat (length r)) w)
  end.

Definition getCols (a : t) : Z := n a.
Definition getRows (a : t) : Z := m a.

(** [get(i)]: [v.at((i - 1) % m).at((i - 1) / m)] *)
Definition get_linear (a : t) (i : Z) : result float :=
  if decide (m a = 0) then Throw undefined_behaviour
  else
    do row <- at_ (v a) (Unsigned.sub i 1 mod m a);
    at_ row (Unsigned.sub i 1 / m a).

(** [set(i, value)] *)
Definition set_linear (a : t) (i : Z) (value : float) : result t :=
  if decide (m a = 0) then Throw undefined_behaviour
  else
    let r := Unsigned.sub i 1 mod m a in
    let c := Unsigned.sub i 1 / m a in
    do row <- at_ (v a) r;
    do _ <- at_ row c;
    Ok (mk (m a) (n a) (<[Z.to_nat r := <[Z.to_nat c := value]> row]> (v a))).

(** [get(i, j)]: [v.at(i-1).at(j-1)] *)
Definition get (a : t) (i j : Z) : result float :=
  do row <- at_ (v a) (Unsigned.sub i 1);
  at_ row (Unsigned.sub j 1).

(** [set(i, j, value)] *)
Definition set (a : t) (i j : Z) (value : float) : result t :=
  let r := Unsigned.sub i 1 in
  let c := Unsigned.sub j 1 in
  do row <- at_ (v a) r;
  do _ <- at_ row c;
  Ok (mk (m a) (n a) (<[Z.to_nat r := <[Z.to_nat c := value]> row]> (v a))).

(** The shared shape of the element-wise operators: a fresh [m x n] matrix
    [a], and [a.set(i, j, elem i j)] for every row [i] and column [j]. *)
Definition pointwise (rows cols : Z) (elem : Z -> Z -> result float) : result t :=
  for_loop 1 rows (fun i a =>
    for_loop 1 cols (fun j a =>
      do x <- elem i j; set a i j x) a)
    (fill rows cols 0).

(** [operator+] *)
Definition add (a o : t) : result t :=
  pointwise (m a) (n a) (fun i j =>
    do x <- get a i j; do y <- get o i j; Ok (x + y)%float).

(** [operator-] *)
Definition sub (a o : t) : result t :=
  pointwise (m a) (n a) (fun i j =>
    do x <- get a i j; do y <- get o i j; Ok (x - y)%float).

(** [operator*(double)] *)
Definition scale (a : t) (s : float) : result t :=
  pointwise (m a) (n a) (fun i j =>
    do x <- get a i j; Ok (s * x)%float).

(** [operator/(double)] *)
Definition div (a : t) (s : float) : result t :=
  pointwise (m a) (n a) (fun i j =>
    do x <- get a i j; Ok (s / x)%float).

(** [friend operator*(double, const Matrix&)] *)
Definition scale_left (s : float) (o : t) : result t := scale o s.

(** [transpose()] *)
Definition transpose (a : t) : result t :=
  for_loop 1 (getRows a) (fun i w =>
    for_loop 1 (getCols a) (fun j w =>
      do x <- get a i j; set w j i x) w)
    (fill (getCols a) (getRows a) 0).

(** [t()] *)
Definition t_ (a : t) : result t := transpose a.

(** [isVector()] *)
Definition isVector (a : t) : bool :=
  bool_decide (m a = 1) || bool_decide (n a = 1).

(** [length()] *)
Definition length (a : t) : Z := Unsigned.mul (m a) (n a).

(** [det2()] *)
Definition det2 (a : t) : result float :=
  if bool_decide (m a <> 2) && bool_decide (n a <> 2)
  then Throw (invalid_argument "Can't apply det2 to a non 2x2 matrix")
  else
    do a11 <- get a 1 1;
    do a22 <- get a 2 2;
    do a12 <- get a 1 2;
    do a21 <- get a 2 1;
    Ok (a11 * a22 - a12 * a21)%float.

(** [mod()] *)
Definition mod_ (a : t) : result float :=
  do sum <- for_loop 1 (length a) (fun i sum =>
              do x <- get_linear a i; Ok (sum + x * x)%float) 0%float;
  Ok (PrimFloat.sqrt sum).

(** [x()] *)
Definition x (a : t) : result float :=
  if bool_decide (m a = 1) && bool_decide (n a = 1)
  then get a 1 1
  else Throw (invalid_argument "Not a 1x1 Matrix").

(** [x1()] *)
Definition x1 (a : t) : result float :=
  if bool_decide (m a = 2) && bool_decide (n a = 1)
  then get a 1 1
  else Throw (invalid_argument "Not a 2x1 column vector").

(** [x2()] *)
Definition x2 (a : t) : result float :=
  if bool_decide (m a = 2) && bool_decide (n a = 1)
  then get a 2 1
  else Throw (invalid_argument "Not a 2x1 column vector").

(** [operator*(const Matrix&)] *)
Definition mul (a o : t) : result t :=
  if bool_decide (getCols a <> getRows o)
  then Throw (invalid_argument "Invalid matrix multiplication")
  else
    for_loop 1 (getRows a) (fun i w =>
      for_loop 1 (getCols o) (fun j w =>
        do sum <- for_loop 1 (getCols a) (fun k sum =>
                    do x <- get a i k; do y <- get o k j;
                    Ok (sum + x * y)%float) 0%float;
        set w i j sum) w)
      (fill (getRows a) (getCols o) 0).

(** [eye(n)] *)
Definition eye (k : Z) : result t :=
  for_loop 1 k (fun i w => set w i i 1%float) (fill k k 0).

(** The class invariant: the storage is [m] rows of [n] elements each, and
    the dimensions are [unsigned] values below [UINT_MAX], so that the loops
    over the rows and the columns exit. *)
Definition wf (a : t) : Prop :=
  0 <= m a < Unsigned.UINT_MAX /\
  0 <= n a < Unsigned.UINT_MAX /\
  List.length (v a) = Z.to_nat (m a) /\
  Forall (fun row => List.length row = Z.to_nat (n a)) (v a).

End Matrix.

(** ** Armijo line search and the gradient method *)

Section Optimization.

(** [pow] of <cmath>, as called on [(double, unsigned)]: the second argument
    is converted to [double]. *)
Variable pow : float -> float -> float.

(** The objective and its gradient, passed as function pointers from
    [Matrix] to [double] and from [Matrix] to [Matrix]: pure functions. *)
Variable f : Matrix.t -> float.
Variable gradf : Matrix.t -> Matrix.t.

(** The condition of the [if] inside the loop of [armijo_call]:
    [f(x) - f(x + s * pow(beta, iter) * d)
       >= -sigma * s * pow(beta, iter) * (gradf(x).t() * d).x()] *)
Definition armijo_test (s beta sigma : float) (x d : Matrix.t) (iter : Z)
  : result bool :=
  let p := pow beta (Unsigned.to_double iter) in
  do step <- Matrix.scale_left (s * p)%float d;
  do trial <- Matrix.add x step;
  do gt <- Matrix.t_ (gradf x);
  do gd <- Matrix.mul gt d;
  do slope <- Matrix.x gd;
  Ok (PrimFloat.leb (- sigma * s * p * slope)%float (f x - f trial)%float).

(** [while (true) { if (test) break; ++iter; }]: the value of [iter] at the
    [break]. *)
Fixpoint armijo_loop (fuel : nat) (s beta sigma : float) (x d : Matrix.t)
  (iter : Z) : option (result Z) :=
  match fuel with
  | O => None
  | S fuel' =>
    match armijo_test s beta sigma x d iter with
    | Throw e => Some (Throw e)
    | Ok true => Some (Ok iter)
    | Ok false => armijo_loop fuel' s beta sigma x d (Unsigned.succ iter)
    end
  end.

Definition armijo_call (fuel : nat) (s beta sigma : float) (x d : Matrix.t)
  : option (result float) :=
  match armijo_loop fuel s beta sigma x d 0 with
  | None => None
  | Some (Throw e) => Some (Throw e)
  | Some (Ok iter) => Some (Ok (s * pow beta (Unsigned.to_double iter))%float)
  end.

(** The constant [0.8] of the call [armijo_call(0.8, 0.8, 0.8, ...)], as the
    binary64 value the literal denotes. *)
Definition c08 : float := 0x1.999999999999ap-1%float.

(** One pass through the body of the loop of [gradient_method] after the
    stopping test failed: the direction, the step and the next iterate. *)
Definition descent_direction (xk : Matrix.t) : result Matrix.t :=
  Matrix.scale_left (-1)%float (gradf xk).

Definition next_iterate (xk dk : Matrix.t) (ak : float) : result Matrix.t :=
  do akdk <- Matrix.scale_left ak dk;
  Matrix.add xk akdk.

(** The loop of [gradient_method]. *)
Fixpoint gradient_loop (fuel : nat) (epsilon : float) (xk : Matrix.t)
  : option (result Matrix.t) :=
  match fuel with
  | O => None
  | S fuel' =>
    match Matrix.mod_ (gradf xk) with
    | Throw e => Some (Throw e)
    | Ok norm =>
      if PrimFloat.ltb norm epsilon then Some (Ok xk)
      else
        match descent_direction xk with
        | Throw e => Some (Throw e)
        | Ok dk =>
          match armijo_call fuel' c08 c08 c08 xk dk with
          | None => None
          | Some (Throw e) => Some (Throw e)
          | Some (Ok ak) =>
            match next_iterate xk dk ak with
            | Throw e => Some (Throw e)
            | Ok xnext => gradient_loop fuel' epsilon xnext
            end
          end
        end
    end
  end.

(** The coordinates printed as "(x1, x2)". *)
Definition print_point (p : Matrix.t) : result unit :=
  do _ <- Matrix.x1 p;
  do _ <- Matrix.x2 p;
  Ok tt.

Definition gradient_method (fuel : nat) (x0 : Matrix.t) (epsilon : float)
  : option (result Matrix.t) :=
  match print_point x0 with
  | Throw e => Some (Throw e)
  | Ok _ =>
    match gradient_loop fuel epsilon x0 with
    | None => None
    | Some (Throw e) => Some (Throw e)
    | Some (Ok xk) =>
      match print_point xk with
      | Throw e => Some (Throw e)
      | Ok _ => Some (Ok xk)
      end
    end
  end.

(** The run of the driver as the state machine of the design: an iterate
    is final when the norm of its gradient is below [epsilon]; otherwise the
    next iterate is [xk + ak * dk] for the direction [dk = (-1) * gradf(xk)]
    and the step [ak] that the line search returns for the parameters
    [s = beta = sigma = 0.8]. *)
Inductive descent_run (epsilon : float) : Matrix.t -> Matrix.t -> Prop :=
| descent_converged x norm :
    Matrix.mod_ (gradf x) = Ok norm ->
    PrimFloat.ltb norm epsilon = true ->
    descent_run epsilon x x
| descent_step xk norm dk fuel ak step xnext x :
    Matrix.mod_ (gradf xk) = Ok norm ->
    PrimFloat.ltb norm epsilon = false ->
    Matrix.scale_left (-1)%float (gradf xk) = Ok dk ->
    armijo_call fuel c08 c08 c08 xk dk = Some (Ok ak) ->
    Matrix.scale_left ak dk = Ok step ->
    Matrix.add xk step = Ok xnext ->
    descent_run epsilon xnext x ->
    descent_run epsilon xk x.

End Optimization.

(** Sample inputs used to evaluate the line search and the driver: an
    integer power by repeated multiplication, the objective [x1 * x1] and
    its gradient [(2 * x1, 0)]. *)
Fixpoint pow_iter (fuel : nat) (b e : float) : float :=
  match fuel with
  | O => 1%float
  | S fuel' =>
    if PrimFloat.leb e 0 then 1%float else (b * pow_iter fuel' b (e - 1))%float
  end.

Definition sample_pow : float -> float -> float := pow_iter 64.

Definition first_coordinate (p : Matrix.t) : float :=
  match Matrix.get p 1 1 with Ok c => c | Throw _ => 0%float end.

Definition sample_f (p : Matrix.t) : float :=
  (first_coordinate p * first_coordinate p)%float.

Definition sample_gradf (p : Matrix.t) : Matrix.t :=
  Matrix.of_vector [(2 * first_coordinate p)%float; 0%float].

Definition sample_x0 : Matrix.t := Matrix.of_vector [1; 0]%float.

(** The iterate at which the driver stops from [sample_x0] with
    [epsilon = 0.5]. *)
Definition sample_limit : Matrix.t :=
  Matrix.of_vector [0x1.8f34059b7372ap-3; 0]%float.

(** ** Specification vocabulary *)

(** The element stored at row [r] and column [c], counted from zero. *)
Definition entry (a : Matrix.t) (r c : nat) : option float :=
  Matrix.v a !! r ≫= (.!! c).

(** What decides whether an access throws: the dimensions and the length
    of every stored row. *)
Definition shape (a : Matrix.t) : Z * Z * list nat :=
  (Matrix.m a, Matrix.n a, length <$> Matrix.v a).

(** Column [c] (counted from zero), top to bottom. *)
Definition column (a : Matrix.t) (c : nat) : list float :=
  omap (.!! c) (Matrix.v a).

(** All the elements as one flat sequence, column after column. *)
Definition elements (a : Matrix.t) : list float :=
  mjoin (column a <$> seq 0 (Z.to_nat (Matrix.n a))).

(** The sum of the squares, accumulated from the left starting at [0.0]. *)
Definition sum_squares (l : list float) : float :=
  fold_left (fun sum x => sum + x * x)%float l 0%float.

Definition euclidean_norm (l : list float) : float :=
  PrimFloat.sqrt (sum_squares l).

(** Sample matrices used to evaluate the operations. *)
Definition sample_2x3 : Matrix.t :=
  Matrix.mk 2 3 [[1; 2; 3]; [4; 5; 6]]%float.

Definition sample_1x1 : Matrix.t := Matrix.fill 1 1 1.
Definition sample_2x2 : Matrix.t := Matrix.fill 2 2 2.

(** Row [r] (counted from zero), left to right. *)
Definition row (a : Matrix.t) (r : nat) : list float :=
  default [] (Matrix.v a !! r).

(** The dot product as the inner loop of the matrix product accumulates
    it: from [0.0], left to right. *)
Definition dot (u w : list float) : float :=
  fold_left (fun sum p => sum + p.1 * p.2)%float (zip u w) 0%float.

(** Well-formedness of a matrix given by its rows. *)
Ltac solve_wf :=
  unfold Matrix.wf; simpl;
  repeat split; try (vm_compute; congruence); try lia; repeat constructor.

(** * Properties *)

(** ** Unsigned arithmetic *)

Lemma modulus_eq : Unsigned.modulus = 4294967296.
Proof. reflexivity. Qed.

Lemma UINT_MAX_eq : Unsigned.UINT_MAX = 4294967295.
Proof. reflexivity. Qed.

Lemma sub_1_small i : 1 <= i <= Unsigned.modulus -> Unsigned.sub i 1 = i - 1.
Proof.
  intros Hi. unfold Unsigned.sub, Unsigned.wrap.
  apply Z.mod_small. lia.
Qed.

Lemma sub_1_zero : Unsigned.sub 0 1 = Unsigned.UINT_MAX.
Proof. reflexivity. Qed.

(** ** The error monad and the loops *)

Lemma bind_Ok {A B} (r : result A) (k : A -> result B) b :
  bind r k = Ok b <-> exists a, r = Ok a /\ k a = Ok b.
Proof.
  destruct r as [a|e]; simpl; split.
  - eauto.
  - intros (a' & [= <-] & Hk). exact Hk.
  - discriminate.
  - intros (a' & [=] & _).
Qed.

Lemma at_Ok {A} (w : list A) k a :
  at_ w k = Ok a <-> 0 <= k /\ w !! Z.to_nat k = Some a.
Proof.
  unfold at_. case_bool_decide as Hk.
  - destruct (w !! Z.to_nat k) as [a'|] eqn:Hw; split.
    + intros [= <-]. split; [lia | done].
    + intros [_ [= <-]]. done.
    + discriminate.
    + intros [_ [=]].
  - split; [discriminate|].
    intros [H0 Hw]. apply lookup_lt_Some in Hw. lia.
Qed.

Lemma at_Throw {A} (w : list A) k e : at_ w k = Throw e -> e = out_of_range.
Proof.
  unfold at_. case_bool_decide; [destruct (w !! Z.to_nat k)|]; congruence.
Qed.

Lemma at_in_range {A} (w : list A) k :
  0 <= k < Z.of_nat (length w) -> exists a, at_ w k = Ok a.
Proof.
  intros Hk. destruct (lookup_lt_is_Some_2 w (Z.to_nat k)) as [a Ha]; [lia|].
  exists a. apply at_Ok. split; [lia | done].
Qed.

Lemma at_out_of_range {A} (w : list A) k :
  Z.of_nat (length w) <= k -> at_ w k = Throw out_of_range.
Proof.
  intros Hk. unfold at_. rewrite bool_decide_eq_false_2; [done | lia].
Qed.

Lemma for_each_app {I S} (l1 l2 : list I) (body : I -> S -> result S) s :
  for_each (l1 ++ l2) body s = do s' <- for_each l1 body s; for_each l2 body s'.
Proof.
  revert s. induction l1 as [|i l1 IH]; intros s; simpl; [done|].
  destruct (body i s); simpl; auto.
Qed.

Lemma for_each_fmap {I J S} (g : I -> J) (l : list I) (body : J -> S -> result S) s :
  for_each (g <$> l) body s = for_each l (fun i => body (g i)) s.
Proof.
  revert s. induction l as [|i l IH]; intros s; simpl; [done|].
  destruct (body (g i) s); simpl; auto.
Qed.

(** A nested pair of loops visits the pairs of indices in row order. *)
Lemma for_each_nested {S} (l1 l2 : list Z) (body : Z -> Z -> S -> result S) s :
  for_each l1 (fun i s => for_each l2 (body i) s) s
  = for_each (i ← l1; pair i <$> l2) (fun p => body p.1 p.2) s.
Proof.
  revert s. induction l1 as [|i l1 IH]; intros s; [done|].
  simpl. rewrite for_each_app, for_each_fmap. simpl.
  destruct (for_each l2 _ s); simpl; auto.
Qed.

Lemma for_loop_1 {S} hi (body : Z -> S -> result S) s :
  hi < Unsigned.UINT_MAX ->
  for_loop 1 hi body s = for_each (seqZ 1 hi) body s.
Proof.
  intros Hhi. unfold for_loop. rewrite bool_decide_eq_true_2 by done.
  by replace (hi - 1 + 1) with hi by lia.
Qed.

Lemma elem_of_index_pairs rows cols (p : Z * Z) :
  p ∈ (i ← seqZ 1 rows; pair i <$> seqZ 1 cols)
  <-> 1 <= p.1 <= rows /\ 1 <= p.2 <= cols.
Proof.
  rewrite list_elem_of_bind. split.
  - intros (i & Hp & Hi). apply list_elem_of_fmap in Hp as (j & -> & Hj).
    apply elem_of_seqZ in Hi, Hj. simpl. lia.
  - intros [Hi Hj]. exists p.1. split.
    + apply list_elem_of_fmap. exists p.2. split; [by destruct p|].
      apply elem_of_seqZ. lia.
    + apply elem_of_seqZ. lia.
Qed.

(** ** Element access *)

Lemma at_lookup {A} (w : list A) k :
  0 <= k ->
  at_ w k = match w !! Z.to_nat k with
            | Some a => Ok a
            | None => Throw out_of_range
            end.
Proof.
  intros Hk. unfold at_. case_bool_decide as Hlt; [done|].
  rewrite lookup_ge_None_2; [done | lia].
Qed.

Lemma get_entry a i j :
  1 <= i <= Unsigned.modulus -> 1 <= j <= Unsigned.modulus ->
  Matrix.get a i j =
    match entry a (Z.to_nat (i - 1)) (Z.to_nat (j - 1)) with
    | Some x => Ok x
    | None => Throw out_of_range
    end.
Proof.
  intros Hi Hj. unfold Matrix.get, entry.
  rewrite !sub_1_small by done. rewrite at_lookup by lia.
  destruct (Matrix.v a !! Z.to_nat (i - 1)) as [row|]; simpl; [|done].
  apply at_lookup. lia.
Qed.

Lemma get_Ok_entry a i j x :
  1 <= i <= Unsigned.modulus -> 1 <= j <= Unsigned.modulus ->
  Matrix.get a i j = Ok x <-> entry a (Z.to_nat (i - 1)) (Z.to_nat (j - 1)) = Some x.
Proof.
  intros Hi Hj. rewrite get_entry by done.
  destruct (entry a _ _); split; congruence.
Qed.

Lemma get_Throw a i j e : Matrix.get a i j = Throw e -> e = out_of_range.
Proof.
  unfold Matrix.get. destruct (at_ (Matrix.v a) _) as [row|e'] eqn:Hrow; simpl.
  - apply at_Throw.
  - intros [= <-]. by apply at_Throw in Hrow.
Qed.

Lemma set_entry a i j x :
  1 <= i <= Unsigned.modulus -> 1 <= j <= Unsigned.modulus ->
  Matrix.set a i j x =
    match Matrix.v a !! Z.to_nat (i - 1) with
    | Some row =>
      match row !! Z.to_nat (j - 1) with
      | Some _ =>
        Ok (Matrix.mk (Matrix.m a) (Matrix.n a)
              (<[Z.to_nat (i - 1) := <[Z.to_nat (j - 1) := x]> row]> (Matrix.v a)))
      | None => Throw out_of_range
      end
    | None => Throw out_of_range
    end.
Proof.
  intros Hi Hj. unfold Matrix.set.
  rewrite !sub_1_small by done. rewrite at_lookup by lia.
  destruct (Matrix.v a !! Z.to_nat (i - 1)) as [row|]; simpl; [|done].
  rewrite at_lookup by lia. by destruct (row !! Z.to_nat (j - 1)).
Qed.

Lemma set_Ok a i j x a' :
  1 <= i <= Unsigned.modulus -> 1 <= j <= Unsigned.modulus ->
  Matrix.set a i j x = Ok a' ->
  shape a' = shape a /\
  forall r c,
    entry a' r c =
      if decide (r = Z.to_nat (i - 1) /\ c = Z.to_nat (j - 1)) then Some x
      else entry a r c.
Proof.
  intros Hi Hj. rewrite set_entry by done.
  destruct (Matrix.v a !! Z.to_nat (i - 1)) as [row|] eqn:Hrow; [|done].
  destruct (row !! Z.to_nat (j - 1)) as [y|] eqn:Hy; [|done].
  intros [= <-]. split.
  - unfold shape. simpl. f_equal.
    rewrite list_fmap_insert, length_insert.
    apply list_insert_id. by rewrite list_lookup_fmap, Hrow.
  - intros r c. unfold entry. simpl.
    apply lookup_lt_Some in Hrow as Hr. apply lookup_lt_Some in Hy as Hc.
    destruct (decide (r = Z.to_nat (i - 1))) as [->|Hne].
    + rewrite list_lookup_insert_eq by done. simpl.
      destruct (decide (c = Z.to_nat (j - 1))) as [->|Hne].
      * rewrite list_lookup_insert_eq by done. by rewrite decide_True.
      * rewrite list_lookup_insert_ne by done.
        rewrite decide_False by (intros [_ ?]; done). by rewrite Hrow.
    + rewrite list_lookup_insert_ne by done.
      by rewrite decide_False by (intros [? _]; done).
Qed.

Lemma set_in_range a i j x :
  1 <= i <= Unsigned.modulus -> 1 <= j <= Unsigned.modulus ->
  is_Some (entry a (Z.to_nat (i - 1)) (Z.to_nat (j - 1))) ->
  exists a', Matrix.set a i j x = Ok a'.
Proof.
  intros Hi Hj [y Hy]. rewrite set_entry by done. unfold entry in Hy.
  destruct (Matrix.v a !! Z.to_nat (i - 1)) as [row|]; [|done].
  simpl in Hy. rewrite Hy. eauto.
Qed.

(** ** Well-formed matrices *)

Lemma wf_shape a b : shape a = shape b -> Matrix.wf a -> Matrix.wf b.
Proof.
  unfold shape, Matrix.wf. intros [= Hm Hn Hv] (Hma & Hna & Hlen & Hrows).
  rewrite <- Hm, <- Hn. repeat split; try lia.
  - rewrite <- Hlen. rewrite <- (length_fmap length (Matrix.v b)), <- Hv.
    by rewrite length_fmap.
  - assert (Forall (fun k => k = Z.to_nat (Matrix.n a)) (length <$> Matrix.v a))
      as Hk by (apply Forall_fmap; exact Hrows).
    rewrite Hv in Hk. apply Forall_fmap in Hk. exact Hk.
Qed.

Lemma wf_entry a r c :
  Matrix.wf a ->
  is_Some (entry a r c) <->
  (r < Z.to_nat (Matrix.m a))%nat /\ (c < Z.to_nat (Matrix.n a))%nat.
Proof.
  intros (_ & _ & Hlen & Hrows). unfold entry. split.
  - intros [x Hx].
    destruct (Matrix.v a !! r) as [row|] eqn:Hrow; [|done]. simpl in Hx.
    apply lookup_lt_Some in Hrow as Hr. apply lookup_lt_Some in Hx.
    rewrite Forall_lookup in Hrows. apply Hrows in Hrow. lia.
  - intros [Hr Hc].
    destruct (lookup_lt_is_Some_2 (Matrix.v a) r) as [row Hrow]; [lia|].
    rewrite Hrow. simpl. apply lookup_lt_is_Some_2.
    rewrite Forall_lookup in Hrows. apply Hrows in Hrow. lia.
Qed.

Lemma wf_fill rows cols x :
  0 <= rows < Unsigned.UINT_MAX -> 0 <= cols < Unsigned.UINT_MAX ->
  Matrix.wf (Matrix.fill rows cols x).
Proof.
  intros Hr Hc. unfold Matrix.wf, Matrix.fill. simpl.
  repeat split; try lia.
  - apply length_replicate.
  - apply Forall_replicate, length_replicate.
Qed.

(** Two well-formed matrices with the same dimensions and the same
    elements are the same matrix. *)
Lemma matrix_ext a b :
  Matrix.wf a -> Matrix.wf b ->
  Matrix.m a = Matrix.m b -> Matrix.n a = Matrix.n b ->
  (forall r c, entry a r c = entry b r c) ->
  a = b.
Proof.
  destruct a as [ma na va], b as [mb nb vb]. unfold Matrix.wf, entry. simpl.
  intros (_ & _ & Hla & Hra) (_ & _ & Hlb & Hrb) <- <- Hent. f_equal.
  apply (list_eq_same_length _ _ (Z.to_nat ma)); [done..|].
  intros r x y Hr Hx Hy.
  rewrite Forall_lookup in Hra, Hrb.
  apply (list_eq_same_length _ _ (Z.to_nat na)); [by eapply Hrb | by eapply Hra|].
  intros c p q Hc Hp Hq. specialize (Hent r c).
  rewrite Hx, Hy in Hent. simpl in Hent. congruence.
Qed.

Lemma matrix_ext_get a b :
  Matrix.wf a -> Matrix.wf b ->
  Matrix.m a = Matrix.m b -> Matrix.n a = Matrix.n b ->
  (forall i j, 1 <= i <= Matrix.m a -> 1 <= j <= Matrix.n a ->
               Matrix.get a i j = Matrix.get b i j) ->
  a = b.
Proof.
  intros Ha Hb Hm Hn Hget. apply matrix_ext; try done.
  intros r c.
  destruct (decide ((r < Z.to_nat (Matrix.m a))%nat /\ (c < Z.to_nat (Matrix.n a))%nat))
    as [[Hr Hc]|Hout].
  - pose proof Ha as (Hma & Hna & _). rewrite UINT_MAX_eq in Hma, Hna.
    specialize (Hget (Z.of_nat r + 1) (Z.of_nat c + 1)).
    rewrite !get_entry in Hget by (rewrite modulus_eq; lia).
    replace (Z.to_nat (Z.of_nat r + 1 - 1)) with r in Hget by lia.
    replace (Z.to_nat (Z.of_nat c + 1 - 1)) with c in Hget by lia.
    destruct (entry a r c), (entry b r c);
      specialize (Hget ltac:(lia) ltac:(lia)); congruence.
  - assert (entry a r c = None) as ->.
    { apply eq_None_not_Some. by rewrite wf_entry. }
    symmetry. apply eq_None_not_Some. rewrite wf_entry by done.
    by rewrite <- Hm, <- Hn.
Qed.

(** ** Loops that write one element per index pair *)

Lemma wf_index_bounds a i j :
  Matrix.wf a -> 1 <= i <= Matrix.m a -> 1 <= j <= Matrix.n a ->
  1 <= i <= Unsigned.modulus /\ 1 <= j <= Unsigned.modulus.
Proof.
  intros (Hm & Hn & _) Hi Hj. rewrite UINT_MAX_eq in Hm, Hn.
  rewrite modulus_eq. lia.
Qed.

Lemma wf_get_in_range a i j :
  Matrix.wf a -> 1 <= i <= Matrix.m a -> 1 <= j <= Matrix.n a ->
  exists x, Matrix.get a i j = Ok x.
Proof.
  intros Ha Hi Hj. destruct (wf_index_bounds a i j) as [Hi' Hj']; try done.
  destruct (proj2 (wf_entry a (Z.to_nat (i - 1)) (Z.to_nat (j - 1)) Ha)) as [x Hx];
    [lia|].
  exists x. by apply get_Ok_entry.
Qed.

Lemma wf_set_in_range a i j x :
  Matrix.wf a -> 1 <= i <= Matrix.m a -> 1 <= j <= Matrix.n a ->
  exists a', Matrix.set a i j x = Ok a' /\ shape a' = shape a /\
    Matrix.get a' i j = Ok x /\
    forall i' j', 1 <= i' <= Matrix.m a -> 1 <= j' <= Matrix.n a ->
                  (i', j') <> (i, j) -> Matrix.get a' i' j' = Matrix.get a i' j'.
Proof.
  intros Ha Hi Hj. destruct (wf_index_bounds a i j) as [Hi' Hj']; try done.
  destruct (set_in_range a i j x) as [a' Hset]; try done.
  { apply wf_entry; [done | lia]. }
  exists a'. destruct (set_Ok _ _ _ _ _ Hi' Hj' Hset) as [Hshape Hent].
  repeat split; try done.
  - apply get_Ok_entry; try done. rewrite Hent. by rewrite decide_True.
  - intros i' j' Hi2 Hj2 Hne.
    destruct (wf_index_bounds a i' j') as [Hi2' Hj2']; try done.
    rewrite !get_entry by done. rewrite Hent.
    rewrite decide_False; [done|].
    intros [Hr Hc]. apply Hne. f_equal; lia.
Qed.

Lemma shape_dims a b :
  shape a = shape b -> Matrix.m a = Matrix.m b /\ Matrix.n a = Matrix.n b.
Proof. unfold shape. intros [= -> -> _]. done. Qed.

Lemma for_each_set (ps : list (Z * Z)) (pos : Z * Z -> Z * Z)
    (elem : Z * Z -> result float) (acc : Matrix.t) :
  Matrix.wf acc ->
  (forall p, p ∈ ps ->
     1 <= (pos p).1 <= Matrix.m acc /\ 1 <= (pos p).2 <= Matrix.n acc) ->
  (forall p, p ∈ ps -> exists x, elem p = Ok x) ->
  (forall p q, p ∈ ps -> q ∈ ps -> pos p = pos q -> elem p = elem q) ->
  exists acc',
    for_each ps (fun p a => do x <- elem p; Matrix.set a (pos p).1 (pos p).2 x) acc
      = Ok acc' /\
    shape acc' = shape acc /\
    (forall p, p ∈ ps -> Matrix.get acc' (pos p).1 (pos p).2 = elem p) /\
    (forall i j, 1 <= i <= Matrix.m acc -> 1 <= j <= Matrix.n acc ->
                 (i, j) ∉ pos <$> ps -> Matrix.get acc' i j = Matrix.get acc i j).
Proof.
  revert acc. induction ps as [|p ps IH]; intros acc Hwf Hpos Helem Hcons.
  - exists acc. repeat split; try done. intros p Hp. inv Hp.
  - destruct (Helem p) as [x Hx]; [left|].
    destruct (Hpos p) as [Hi Hj]; [left|].
    destruct (wf_set_in_range acc _ _ x Hwf Hi Hj)
      as (acc1 & Hset & Hshape1 & Hget1 & Hframe1).
    destruct (shape_dims _ _ Hshape1) as [Hm1 Hn1].
    destruct (IH acc1) as (acc' & Hrun & Hshape & Hwritten & Hframe).
    { by eapply wf_shape. }
    { intros q Hq. rewrite Hm1, Hn1. apply Hpos. by right. }
    { intros q Hq. apply Helem. by right. }
    { intros q q' Hq Hq'. apply Hcons; by right. }
    exists acc'. simpl. rewrite Hx. simpl. rewrite Hset.
    split; [done|]. split; [congruence|]. split.
    + intros q Hq. apply elem_of_cons in Hq as [->|Hq]; [|by apply Hwritten].
      destruct (decide (pos p ∈ pos <$> ps)) as [Hin|Hnin].
      * apply list_elem_of_fmap in Hin as (q & Heq & Hq).
        rewrite Heq, (Hwritten q Hq). symmetry. apply Hcons; [left|by right|done].
      * destruct (pos p) as [i j] eqn:Hp. simpl in *.
        rewrite Hframe by (rewrite ?Hm1, ?Hn1; done). congruence.
    + intros i j Hi' Hj' Hnin. apply not_elem_of_cons in Hnin as [Hne Hnin].
      rewrite Hframe by (rewrite ?Hm1, ?Hn1; done).
      apply Hframe1; try done. destruct (pos p). simpl. done.
Qed.

(** ** The element-wise operators *)

Lemma pointwise_spec rows cols (elem : Z -> Z -> result float) :
  0 <= rows < Unsigned.UINT_MAX -> 0 <= cols < Unsigned.UINT_MAX ->
  (forall i j, 1 <= i <= rows -> 1 <= j <= cols -> exists x, elem i j = Ok x) ->
  exists w, Matrix.pointwise rows cols elem = Ok w /\
    Matrix.wf w /\ Matrix.m w = rows /\ Matrix.n w = cols /\
    forall i j, 1 <= i <= rows -> 1 <= j <= cols -> Matrix.get w i j = elem i j.
Proof.
  intros Hrows Hcols Helem.
  pose proof (wf_fill rows cols 0 Hrows Hcols) as Hwf.
  destruct (for_each_set (i ← seqZ 1 rows; pair i <$> seqZ 1 cols)
              (fun p => p) (fun p => elem p.1 p.2) (Matrix.fill rows cols 0))
    as (w & Hrun & Hshape & Hwritten & _); try done.
  - intros p Hp. by apply elem_of_index_pairs in Hp.
  - intros p Hp. apply elem_of_index_pairs in Hp as [Hi Hj]. by apply Helem.
  - by intros p q _ _ ->.
  - exists w. destruct (shape_dims _ _ Hshape) as [Hm Hn]. simpl in Hm, Hn.
    split; [|split; [by eapply wf_shape|repeat split; try done]].
    + unfold Matrix.pointwise, for_loop.
      rewrite (bool_decide_eq_true_2 (rows < Unsigned.UINT_MAX)) by lia.
      rewrite (bool_decide_eq_true_2 (cols < Unsigned.UINT_MAX)) by lia.
      replace (rows - 1 + 1) with rows by lia.
      replace (cols - 1 + 1) with cols by lia.
      rewrite <- Hrun.
      apply (for_each_nested (seqZ 1 rows) (seqZ 1 cols)
               (fun i j a => do x <- elem i j; Matrix.set a i j x)).
    + intros i j Hi Hj. apply (Hwritten (i, j)). by apply elem_of_index_pairs.
Qed.

(** [transpose()] on a well-formed matrix: [w[j,i] = this[i,j]]. *)
Lemma transpose_spec a :
  Matrix.wf a ->
  exists w, Matrix.transpose a = Ok w /\
    Matrix.wf w /\ Matrix.m w = Matrix.n a /\ Matrix.n w = Matrix.m a /\
    forall i j, 1 <= i <= Matrix.m a -> 1 <= j <= Matrix.n a ->
                Matrix.get w j i = Matrix.get a i j.
Proof.
  intros Ha. pose proof Ha as (Hm & Hn & _).
  pose proof (wf_fill (Matrix.n a) (Matrix.m a) 0 Hn Hm) as Hwf.
  destruct (for_each_set (i ← seqZ 1 (Matrix.m a); pair i <$> seqZ 1 (Matrix.n a))
              (fun p => (p.2, p.1)) (fun p => Matrix.get a p.1 p.2)
              (Matrix.fill (Matrix.n a) (Matrix.m a) 0))
    as (w & Hrun & Hshape & Hwritten & _); try done.
  - intros p Hp. apply elem_of_index_pairs in Hp. simpl. tauto.
  - intros p Hp. apply elem_of_index_pairs in Hp as [Hi Hj].
    by apply wf_get_in_range.
  - intros [i j] [i' j'] _ _ [= -> ->]. done.
  - exists w. destruct (shape_dims _ _ Hshape) as [Hm' Hn']. simpl in Hm', Hn'.
    split; [|split; [by eapply wf_shape|repeat split; try done]].
    + unfold Matrix.transpose, Matrix.getRows, Matrix.getCols, for_loop.
      rewrite (bool_decide_eq_true_2 (Matrix.m a < Unsigned.UINT_MAX)) by lia.
      rewrite (bool_decide_eq_true_2 (Matrix.n a < Unsigned.UINT_MAX)) by lia.
      replace (Matrix.m a - 1 + 1) with (Matrix.m a) by lia.
      replace (Matrix.n a - 1 + 1) with (Matrix.n a) by lia.
      rewrite <- Hrun.
      apply (for_each_nested (seqZ 1 (Matrix.m a)) (seqZ 1 (Matrix.n a))
               (fun i j w => do x <- Matrix.get a i j; Matrix.set w j i x)).
    + intros i j Hi Hj. apply (Hwritten (i, j)). by apply elem_of_index_pairs.
Qed.

Lemma transpose_transpose a :
  Matrix.wf a ->
  exists w, Matrix.transpose a = Ok w /\ Matrix.transpose w = Ok a.
Proof.
  intros Ha.
  destruct (transpose_spec a Ha) as (w & Hw & Hwf & Hm & Hn & Hget).
  destruct (transpose_spec w Hwf) as (b & Hb & Hwfb & Hmb & Hnb & Hgetb).
  exists w. split; [done|]. rewrite Hb. f_equal.
  apply matrix_ext_get; try done; try congruence.
  intros i j Hi Hj. rewrite Hmb, Hn in Hi. rewrite Hnb, Hm in Hj.
  rewrite Hgetb by lia. by apply Hget.
Qed.

Lemma wf_get_out_of_range a i j :
  Matrix.wf a -> 1 <= i <= Unsigned.modulus -> 1 <= j <= Unsigned.modulus ->
  ~ (i <= Matrix.m a /\ j <= Matrix.n a) ->
  Matrix.get a i j = Throw out_of_range.
Proof.
  intros Ha Hi Hj Hout. rewrite get_entry by done.
  destruct (entry a _ _) as [x|] eqn:Hx; [|done].
  assert (is_Some (entry a (Z.to_nat (i - 1)) (Z.to_nat (j - 1)))) as Hs by eauto.
  apply wf_entry in Hs; [|done]. lia.
Qed.

(** ** Transpose *)

(** C8: transposing a well-formed matrix twice gives the matrix back, with
    the same dimensions and the same elements. *)
Theorem transpose_involution (a : Matrix.t) :
  Matrix.wf a ->
  (do w <- Matrix.transpose a; Matrix.transpose w) = Ok a.
Proof.
  intros Ha. destruct (transpose_transpose a Ha) as (w & -> & Hw). exact Hw.
Qed.

Lemma transpose_involution_witness :
  Matrix.wf sample_2x3 /\
  (do w <- Matrix.transpose sample_2x3; Matrix.transpose w) = Ok sample_2x3.
Proof.
  split; [solve_wf | apply (transpose_involution sample_2x3); solve_wf].
Defined.

(** ** Scalar division *)

(** C5: [a / s] has the dimensions of [a] and its element [(i, j)] is
    [s / a[i,j]], the scalar divided by the element; the 1x1 matrix
    holding 2.0 divided by 4.0 is the 1x1 matrix holding 4.0 / 2.0 = 2.0,
    and not the one holding 0.5. *)
Theorem div_scalar_over_element :
  (forall (a : Matrix.t) (s : float),
     Matrix.wf a ->
     exists w, Matrix.div a s = Ok w /\
       Matrix.wf w /\ Matrix.m w = Matrix.m a /\ Matrix.n w = Matrix.n a /\
       forall i j, 1 <= i <= Matrix.m a -> 1 <= j <= Matrix.n a ->
         exists x, Matrix.get a i j = Ok x /\
                   Matrix.get w i j = Ok (s / x)%float) /\
  Matrix.div (Matrix.fill 1 1 2) 4 = Ok (Matrix.fill 1 1 (4 / 2)) /\
  Matrix.div (Matrix.fill 1 1 2) 4 = Ok (Matrix.fill 1 1 2) /\
  Matrix.div (Matrix.fill 1 1 2) 4 <> Ok (Matrix.fill 1 1 0.5).
Proof.
  split; [|split; [reflexivity|split; [reflexivity|]]].
  - intros a s Ha. pose proof Ha as (Hm & Hn & _).
    destruct (pointwise_spec (Matrix.m a) (Matrix.n a)
                (fun i j => do x <- Matrix.get a i j; Ok (s / x)%float))
      as (w & Hw & Hwf & Hmw & Hnw & Hget); try done.
    + intros i j Hi Hj.
      destruct (wf_get_in_range a i j Ha Hi Hj) as [x ->]. simpl. eauto.
    + exists w. split_and!; try done.
      intros i j Hi Hj. rewrite Hget by done.
      destruct (wf_get_in_range a i j Ha Hi Hj) as [x ->]. simpl. eauto.
  - intros H.
    pose proof (f_equal (fun r => match r with
                                  | Ok w => match Matrix.get w 1 1 with
                                            | Ok x => PrimFloat.eqb x 2
                                            | Throw _ => false
                                            end
                                  | Throw _ => false
                                  end) H) as Heq.
    vm_compute in Heq. discriminate Heq.
Qed.

Lemma div_scalar_over_element_witness :
  Matrix.wf sample_2x3 /\
  exists w, Matrix.div sample_2x3 4 = Ok w /\
    Matrix.wf w /\ Matrix.m w = 2 /\ Matrix.n w = 3 /\
    forall i j, 1 <= i <= 2 -> 1 <= j <= 3 ->
      exists x, Matrix.get sample_2x3 i j = Ok x /\
                Matrix.get w i j = Ok (4 / x)%float.
Proof.
  assert (Matrix.wf sample_2x3) as Hwf by solve_wf.
  split; [exact Hwf|].
  exact (proj1 div_scalar_over_element sample_2x3 4%float Hwf).
Defined.

(** ** Linear access *)

Lemma get_linear_get a i :
  Matrix.wf a -> 1 <= Matrix.m a -> 1 <= i <= Unsigned.modulus ->
  Matrix.get_linear a i
  = Matrix.get a ((i - 1) mod Matrix.m a + 1) ((i - 1) / Matrix.m a + 1).
Proof.
  intros (Hm & _) Hm1 Hi. rewrite UINT_MAX_eq in Hm. rewrite modulus_eq in Hi.
  pose proof (Z.mod_pos_bound (i - 1) (Matrix.m a) ltac:(lia)) as Hrow.
  assert (0 <= (i - 1) / Matrix.m a < Unsigned.modulus) as Hcol.
  { rewrite modulus_eq. split; [apply Z.div_pos; lia|].
    apply Z.div_lt_upper_bound; nia. }
  rewrite modulus_eq in Hcol.
  unfold Matrix.get_linear, Matrix.get.
  rewrite decide_False by lia.
  rewrite !sub_1_small by (rewrite modulus_eq; lia).
  by rewrite !Z.add_simpl_r.
Qed.

Lemma set_linear_set a i value :
  Matrix.wf a -> 1 <= Matrix.m a -> 1 <= i <= Unsigned.modulus ->
  Matrix.set_linear a i value
  = Matrix.set a ((i - 1) mod Matrix.m a + 1) ((i - 1) / Matrix.m a + 1) value.
Proof.
  intros (Hm & _) Hm1 Hi. rewrite UINT_MAX_eq in Hm. rewrite modulus_eq in Hi.
  pose proof (Z.mod_pos_bound (i - 1) (Matrix.m a) ltac:(lia)) as Hrow.
  assert (0 <= (i - 1) / Matrix.m a < Unsigned.modulus) as Hcol.
  { rewrite modulus_eq. split; [apply Z.div_pos; lia|].
    apply Z.div_lt_upper_bound; nia. }
  rewrite modulus_eq in Hcol.
  unfold Matrix.set_linear, Matrix.set.
  rewrite decide_False by lia.
  rewrite !sub_1_small by (rewrite modulus_eq; lia).
  by rewrite !Z.add_simpl_r.
Qed.

(** A wrapped index at or beyond [m * n] selects a stored row and a column
    past its end. *)
Lemma linear_index_past_end a k :
  Matrix.wf a -> 1 <= Matrix.m a -> Matrix.m a * Matrix.n a <= k ->
  exists row, at_ (Matrix.v a) (k mod Matrix.m a) = Ok row /\
    forall A (g : float -> result A),
      (do _x <- at_ row (k / Matrix.m a); g _x) = Throw out_of_range.
Proof.
  intros (Hm & Hn & Hlen & Hrows) Hm1 Hk.
  pose proof (Z.mod_pos_bound k (Matrix.m a) ltac:(lia)) as Hrow.
  destruct (at_in_range (Matrix.v a) (k mod Matrix.m a)) as [row Hr]; [lia|].
  exists row. split; [done|]. intros A g.
  apply at_Ok in Hr as [_ Hr].
  rewrite Forall_lookup in Hrows. apply Hrows in Hr.
  rewrite at_out_of_range; [done|].
  rewrite Hr, Z2Nat.id by lia. apply Z.div_le_lower_bound; lia.
Qed.

(** C4: on an [m x n] matrix with [m, n >= 1] (and [m * n] elements
    addressable by an [unsigned] index), [get(i)] and [set(i, v)] succeed
    exactly when [1 <= i <= m * n] and throw [out_of_range] otherwise; when
    they succeed they read and write the element at row [((i-1) mod m) + 1]
    and column [((i-1) div m) + 1]. *)
Theorem linear_access_column_major (a : Matrix.t) (i : Z) :
  Matrix.wf a -> 1 <= Matrix.m a -> 1 <= Matrix.n a ->
  Matrix.m a * Matrix.n a < Unsigned.modulus ->
  0 <= i < Unsigned.modulus ->
  (1 <= i <= Matrix.m a * Matrix.n a ->
     (exists x,
        Matrix.get_linear a i = Ok x /\
        Matrix.get a ((i - 1) mod Matrix.m a + 1) ((i - 1) / Matrix.m a + 1) = Ok x) /\
     (forall value, exists a',
        Matrix.set_linear a i value = Ok a' /\
        Matrix.set a ((i - 1) mod Matrix.m a + 1) ((i - 1) / Matrix.m a + 1) value
          = Ok a' /\
        Matrix.get a' ((i - 1) mod Matrix.m a + 1) ((i - 1) / Matrix.m a + 1)
          = Ok value)) /\
  (~ (1 <= i <= Matrix.m a * Matrix.n a) ->
     Matrix.get_linear a i = Throw out_of_range /\
     forall value, Matrix.set_linear a i value = Throw out_of_range).
Proof.
  intros Ha Hm1 Hn1 Hsize Hi. rewrite modulus_eq in Hsize, Hi. split.
  - intros Hin.
    pose proof (Z.mod_pos_bound (i - 1) (Matrix.m a) ltac:(lia)) as Hrow.
    assert (0 <= (i - 1) / Matrix.m a < Matrix.n a) as Hcol.
    { split; [apply Z.div_pos; lia|]. apply Z.div_lt_upper_bound; lia. }
    split.
    + rewrite get_linear_get by (rewrite ?modulus_eq; done || lia).
      destruct (wf_get_in_range a ((i - 1) mod Matrix.m a + 1)
                  ((i - 1) / Matrix.m a + 1)) as [x Hx]; try done; try lia.
      eauto.
    + intros value.
      rewrite set_linear_set by (rewrite ?modulus_eq; done || lia).
      destruct (wf_set_in_range a ((i - 1) mod Matrix.m a + 1)
                  ((i - 1) / Matrix.m a + 1) value) as (a' & Ha' & _ & Hread & _);
        try done; try lia.
      eauto.
  - intros Hout.
    assert (Matrix.m a * Matrix.n a <= Unsigned.sub i 1) as Hk.
    { destruct (decide (i = 0)) as [->|Hne].
      - rewrite sub_1_zero, UINT_MAX_eq. lia.
      - rewrite sub_1_small by (rewrite modulus_eq; lia). lia. }
    destruct (linear_index_past_end a _ Ha Hm1 Hk) as (row & Hrow & Hcol).
    split.
    + unfold Matrix.get_linear.
      rewrite decide_False by lia. rewrite Hrow. simpl.
      specialize (Hcol _ Ok). by destruct (at_ row _).
    + intros value. unfold Matrix.set_linear.
      rewrite decide_False by lia. rewrite Hrow. simpl. apply Hcol.
Qed.

Lemma linear_access_column_major_witness :
  Matrix.wf sample_2x3 /\
  (exists x, Matrix.get_linear sample_2x3 4 = Ok x /\
             Matrix.get sample_2x3 2 2 = Ok x) /\
  Matrix.get_linear sample_2x3 0 = Throw out_of_range /\
  Matrix.get_linear sample_2x3 7 = Throw out_of_range.
Proof.
  assert (Matrix.wf sample_2x3) as Hwf by solve_wf.
  split; [exact Hwf|]. split; [|split].
  - apply (linear_access_column_major sample_2x3 4); try done; simpl; lia.
  - apply (linear_access_column_major sample_2x3 0); try done; simpl; lia.
  - apply (linear_access_column_major sample_2x3 7); try done; simpl; lia.
Defined.

(** ** The 2x2 determinant *)

Lemma det2_guard_passes a :
  Matrix.m a = 2 \/ Matrix.n a = 2 ->
  Matrix.det2 a =
    do a11 <- Matrix.get a 1 1;
    do a22 <- Matrix.get a 2 2;
    do a12 <- Matrix.get a 1 2;
    do a21 <- Matrix.get a 2 1;
    Ok (a11 * a22 - a12 * a21)%float.
Proof.
  intros Hdim. unfold Matrix.det2.
  destruct Hdim as [Hm|Hn].
  - by rewrite (bool_decide_eq_false_2 (Matrix.m a <> 2)) by tauto.
  - rewrite (bool_decide_eq_false_2 (Matrix.n a <> 2)) by tauto.
    by rewrite andb_false_r.
Qed.

Lemma det2_guard_fails a :
  Matrix.m a <> 2 -> Matrix.n a <> 2 ->
  Matrix.det2 a = Throw (invalid_argument "Can't apply det2 to a non 2x2 matrix").
Proof.
  intros Hm Hn. unfold Matrix.det2.
  by rewrite !bool_decide_eq_true_2.
Qed.

(** C6: [det2()] throws the shape error exactly when both dimensions differ
    from 2; when one of them is 2 the guard passes, and the call returns
    [get(1,1) * get(2,2) - get(1,2) * get(2,1)] if both dimensions are at
    least 2, and throws [out_of_range] if one of them is smaller than 2. *)
Theorem det2_accept_reject (a : Matrix.t) :
  Matrix.wf a ->
  (Matrix.det2 a = Throw (invalid_argument "Can't apply det2 to a non 2x2 matrix")
   <-> Matrix.m a <> 2 /\ Matrix.n a <> 2) /\
  (Matrix.m a = 2 \/ Matrix.n a = 2 ->
   2 <= Matrix.m a -> 2 <= Matrix.n a ->
   exists a11 a12 a21 a22,
     Matrix.get a 1 1 = Ok a11 /\ Matrix.get a 1 2 = Ok a12 /\
     Matrix.get a 2 1 = Ok a21 /\ Matrix.get a 2 2 = Ok a22 /\
     Matrix.det2 a = Ok (a11 * a22 - a12 * a21)%float) /\
  (Matrix.m a = 2 \/ Matrix.n a = 2 ->
   Matrix.m a < 2 \/ Matrix.n a < 2 ->
   Matrix.det2 a = Throw out_of_range).
Proof.
  intros Ha.
  assert (Matrix.m a = 2 \/ Matrix.n a = 2 ->
          forall e, Matrix.det2 a = Throw e -> e = out_of_range) as Hthrow.
  { intros Hdim e. rewrite det2_guard_passes by done.
    destruct (Matrix.get a 1 1) eqn:H11; simpl; [|intros [= <-]; by eapply get_Throw].
    destruct (Matrix.get a 2 2) eqn:H22; simpl; [|intros [= <-]; by eapply get_Throw].
    destruct (Matrix.get a 1 2) eqn:H12; simpl; [|intros [= <-]; by eapply get_Throw].
    destruct (Matrix.get a 2 1) eqn:H21; simpl; [|intros [= <-]; by eapply get_Throw].
    discriminate. }
  split_and!.
  - split.
    + intros Hdet.
      destruct (decide (Matrix.m a = 2 \/ Matrix.n a = 2)) as [Hdim|Hdim]; [|tauto].
      by apply Hthrow in Hdet.
    + intros [Hm Hn]. by apply det2_guard_fails.
  - intros Hdim Hm Hn.
    destruct (wf_get_in_range a 1 1 Ha) as [a11 H11]; try lia.
    destruct (wf_get_in_range a 1 2 Ha) as [a12 H12]; try lia.
    destruct (wf_get_in_range a 2 1 Ha) as [a21 H21]; try lia.
    destruct (wf_get_in_range a 2 2 Ha) as [a22 H22]; try lia.
    exists a11, a12, a21, a22. split_and!; try done.
    rewrite det2_guard_passes by done. by rewrite H11, H22, H12, H21.
  - intros Hdim Hsmall.
    destruct (Matrix.det2 a) as [d|e] eqn:Hdet; [|by rewrite (Hthrow Hdim e)].
    rewrite det2_guard_passes in Hdet by done.
    rewrite (wf_get_out_of_range a 2 2) in Hdet;
      try done; try (rewrite modulus_eq; lia); try lia.
    by destruct (Matrix.get a 1 1).
Qed.

Lemma det2_accept_reject_witness :
  Matrix.wf sample_2x3 /\
  (exists a11 a12 a21 a22,
     Matrix.get sample_2x3 1 1 = Ok a11 /\ Matrix.get sample_2x3 1 2 = Ok a12 /\
     Matrix.get sample_2x3 2 1 = Ok a21 /\ Matrix.get sample_2x3 2 2 = Ok a22 /\
     Matrix.det2 sample_2x3 = Ok (a11 * a22 - a12 * a21)%float) /\
  Matrix.wf (Matrix.fill 2 1 1) /\
  Matrix.det2 (Matrix.fill 2 1 1) = Throw out_of_range.
Proof.
  assert (Matrix.wf sample_2x3) as Hwf by solve_wf.
  assert (Matrix.wf (Matrix.fill 2 1 1)) as Hwf' by solve_wf.
  split; [exact Hwf|]. split; [|split; [exact Hwf'|]].
  - apply (det2_accept_reject sample_2x3 Hwf); simpl; [left| |]; lia.
  - apply (det2_accept_reject (Matrix.fill 2 1 1) Hwf'); simpl; [left|right]; lia.
Defined.

(** ** Addition and subtraction *)

Lemma zip_spec (op : float -> float -> float) a o :
  Matrix.wf a -> Matrix.wf o ->
  Matrix.m a <= Matrix.m o -> Matrix.n a <= Matrix.n o ->
  exists w,
    Matrix.pointwise (Matrix.m a) (Matrix.n a) (fun i j =>
      do x <- Matrix.get a i j; do y <- Matrix.get o i j; Ok (op x y)) = Ok w /\
    Matrix.wf w /\ Matrix.m w = Matrix.m a /\ Matrix.n w = Matrix.n a /\
    forall i j, 1 <= i <= Matrix.m a -> 1 <= j <= Matrix.n a ->
      exists x y, Matrix.get a i j = Ok x /\ Matrix.get o i j = Ok y /\
                  Matrix.get w i j = Ok (op x y).
Proof.
  intros Ha Ho Hm Hn. pose proof Ha as (Hma & Hna & _).
  assert (forall i j, 1 <= i <= Matrix.m a -> 1 <= j <= Matrix.n a ->
            exists x y, Matrix.get a i j = Ok x /\ Matrix.get o i j = Ok y /\
              (do x <- Matrix.get a i j; do y <- Matrix.get o i j; Ok (op x y))
                = Ok (op x y)) as Helem.
  { intros i j Hi Hj.
    destruct (wf_get_in_range a i j Ha Hi Hj) as [x Hx].
    destruct (wf_get_in_range o i j Ho) as [y Hy]; [lia..|].
    exists x, y. by rewrite Hx, Hy. }
  destruct (pointwise_spec (Matrix.m a) (Matrix.n a) (fun i j =>
              do x <- Matrix.get a i j; do y <- Matrix.get o i j; Ok (op x y)))
    as (w & Hw & Hwf & Hmw & Hnw & Hget); try done.
  - intros i j Hi Hj. destruct (Helem i j Hi Hj) as (x & y & _ & _ & ->). eauto.
  - exists w. split_and!; try done.
    intros i j Hi Hj. destruct (Helem i j Hi Hj) as (x & y & Hx & Hy & Hxy).
    exists x, y. split_and!; try done. by rewrite Hget.
Qed.

(** C7: on well-formed operands of equal shape [a + o] and [a - o] are the
    element-wise sum and difference; on operands of unequal shape no error
    is reported when the right operand is the larger one: a 1x1 matrix plus
    (minus) a 2x2 matrix is a 1x1 matrix. *)
Theorem add_sub_shapes :
  (forall a o : Matrix.t,
     Matrix.wf a -> Matrix.wf o ->
     Matrix.m a = Matrix.m o -> Matrix.n a = Matrix.n o ->
     exists s d,
       Matrix.add a o = Ok s /\ Matrix.sub a o = Ok d /\
       Matrix.m s = Matrix.m a /\ Matrix.n s = Matrix.n a /\
       Matrix.m d = Matrix.m a /\ Matrix.n d = Matrix.n a /\
       forall i j, 1 <= i <= Matrix.m a -> 1 <= j <= Matrix.n a ->
         exists x y, Matrix.get a i j = Ok x /\ Matrix.get o i j = Ok y /\
                     Matrix.get s i j = Ok (x + y)%float /\
                     Matrix.get d i j = Ok (x - y)%float) /\
  (Matrix.m sample_1x1, Matrix.n sample_1x1)
    <> (Matrix.m sample_2x2, Matrix.n sample_2x2) /\
  Matrix.add sample_1x1 sample_2x2 = Ok (Matrix.fill 1 1 3) /\
  Matrix.sub sample_1x1 sample_2x2 = Ok (Matrix.fill 1 1 (-1)).
Proof.
  split; [|split; [discriminate|split; reflexivity]].
  intros a o Ha Ho Hm Hn.
  destruct (zip_spec PrimFloat.add a o Ha Ho) as (s & Hs & _ & Hms & Hns & Hgs);
    [lia..|].
  destruct (zip_spec PrimFloat.sub a o Ha Ho) as (d & Hd & _ & Hmd & Hnd & Hgd);
    [lia..|].
  exists s, d. split_and!; try done.
  intros i j Hi Hj.
  destruct (Hgs i j Hi Hj) as (x & y & Hx & Hy & Hsum).
  destruct (Hgd i j Hi Hj) as (x' & y' & Hx' & Hy' & Hdiff).
  exists x, y. split_and!; try done.
  rewrite Hx in Hx'. rewrite Hy in Hy'.
  assert (x' = x) as -> by congruence. assert (y' = y) as -> by congruence.
  done.
Qed.

(** ** The Euclidean norm *)

Lemma column_lookup (rows : list (list float)) c k :
  Forall (fun row => length row = k) rows -> (c < k)%nat ->
  length (omap (.!! c) rows) = length rows /\
  forall r, omap (.!! c) rows !! r = rows !! r ≫= (.!! c).
Proof.
  intros Hrows Hc. induction Hrows as [|row rows Hrow _ [IHlen IH]].
  - split; [done|]. intros r. by rewrite !lookup_nil.
  - destruct (lookup_lt_is_Some_2 row c) as [x Hx]; [lia|].
    csimpl. rewrite Hx. csimpl. split; [by rewrite IHlen|].
    intros [|r]; csimpl; [by rewrite Hx | apply IH].
Qed.

Lemma wf_column a c :
  Matrix.wf a -> (c < Z.to_nat (Matrix.n a))%nat ->
  length (column a c) = Z.to_nat (Matrix.m a) /\
  forall r, column a c !! r = entry a r c.
Proof.
  intros (_ & _ & Hlen & Hrows) Hc.
  destruct (column_lookup (Matrix.v a) c _ Hrows Hc) as [Hl Hr].
  split; [by rewrite <- Hlen | exact Hr].
Qed.

Lemma wf_columns a :
  Matrix.wf a ->
  Forall (fun l => length l = Z.to_nat (Matrix.m a))
    (column a <$> seq 0 (Z.to_nat (Matrix.n a))).
Proof.
  intros Ha. apply Forall_fmap, Forall_forall. intros c Hc.
  apply elem_of_seq in Hc. simpl. apply wf_column; [done | lia].
Qed.

Lemma length_elements a :
  Matrix.wf a ->
  length (elements a) = (Z.to_nat (Matrix.n a) * Z.to_nat (Matrix.m a))%nat.
Proof.
  intros Ha. unfold elements.
  rewrite length_join, (sum_list_fmap_same (Z.to_nat (Matrix.m a))).
  - by rewrite length_fmap, length_seq.
  - by apply wf_columns.
Qed.

(** The element at position [c * m + r] of the flat sequence is the one
    stored at row [r] of column [c]. *)
Lemma elements_lookup a r c :
  Matrix.wf a ->
  (r < Z.to_nat (Matrix.m a))%nat -> (c < Z.to_nat (Matrix.n a))%nat ->
  elements a !! (c * Z.to_nat (Matrix.m a) + r)%nat = entry a r c.
Proof.
  intros Ha Hr Hc.
  destruct (proj2 (wf_entry a r c Ha)) as [x Hx]; [done|].
  rewrite Hx. unfold elements.
  apply join_lookup_Some_same_length'; [by apply wf_columns | done |].
  exists (column a c). split.
  - rewrite list_lookup_fmap, lookup_seq_lt by done. done.
  - destruct (wf_column a c Ha Hc) as [_ ->]. done.
Qed.

Lemma get_linear_elements a i :
  Matrix.wf a -> 1 <= Matrix.m a ->
  1 <= i <= Matrix.m a * Matrix.n a -> Matrix.m a * Matrix.n a < Unsigned.modulus ->
  exists x, elements a !! Z.to_nat (i - 1) = Some x /\ Matrix.get_linear a i = Ok x.
Proof.
  intros Ha Hm1 Hi Hsize. pose proof Ha as (Hm & Hn & _).
  rewrite UINT_MAX_eq in Hm, Hn. rewrite modulus_eq in Hsize.
  pose proof (Z.mod_pos_bound (i - 1) (Matrix.m a) ltac:(lia)) as Hrow.
  assert (0 <= (i - 1) / Matrix.m a < Matrix.n a) as Hcol.
  { split; [apply Z.div_pos; lia|]. apply Z.div_lt_upper_bound; lia. }
  pose proof (Z.div_mod (i - 1) (Matrix.m a) ltac:(lia)) as Hdm.
  set (q := (i - 1) / Matrix.m a) in *. set (r := (i - 1) mod Matrix.m a) in *.
  assert (Z.to_nat (i - 1) = (Z.to_nat q * Z.to_nat (Matrix.m a) + Z.to_nat r)%nat)
    as ->.
  { rewrite Hdm. rewrite Z2Nat.inj_add, Z2Nat.inj_mul by nia. lia. }
  rewrite elements_lookup by (done || lia).
  destruct (proj2 (wf_entry a (Z.to_nat r) (Z.to_nat q) Ha)) as [x Hx]; [lia|].
  exists x. split; [done|].
  rewrite get_linear_get by (rewrite ?modulus_eq; done || lia).
  apply get_Ok_entry; try (rewrite modulus_eq; subst q r; lia).
  subst q r. by rewrite !Z.add_simpl_r.
Qed.

(** A loop that reads the elements of [l] one after the other and
    accumulates them is a left fold over [l]. *)
Lemma for_each_fold {A B} (F : B -> A -> B) (g : Z -> result A) (l : list A) s0 :
  (forall k x, l !! k = Some x -> g (1 + Z.of_nat k) = Ok x) ->
  for_each (seqZ 1 (Z.of_nat (length l))) (fun i s => do x <- g i; Ok (F s x)) s0
  = Ok (fold_left F l s0).
Proof.
  induction l as [|x l IH] using rev_ind; intros Hg; [done|].
  rewrite length_app, Nat.add_1_r, seqZ_S, for_each_app, fold_left_app.
  rewrite IH.
  - simpl. rewrite (Hg (length l) x); [done|].
    by rewrite lookup_app_r, Nat.sub_diag.
  - intros k y Hk. apply Hg. by apply lookup_app_l_Some.
Qed.

(** C9: on a well-formed matrix with [m, n >= 1] (and an element count
    below [UINT_MAX], so that [length()] and the loop counter do not wrap)
    [mod()] is the square root of the sum of the squares of all [m * n]
    elements, taken as one flat sequence; on the column vector [3, 4] it
    is 5.0. *)
Theorem mod_euclidean_norm :
  (forall a : Matrix.t,
     Matrix.wf a -> 1 <= Matrix.m a -> 1 <= Matrix.n a ->
     Matrix.m a * Matrix.n a < Unsigned.UINT_MAX ->
     Z.of_nat (length (elements a)) = Matrix.m a * Matrix.n a /\
     Matrix.mod_ a = Ok (euclidean_norm (elements a))) /\
  elements (Matrix.of_vector [3; 4]%float) = [3; 4]%float /\
  Matrix.mod_ (Matrix.of_vector [3; 4]%float) = Ok 5%float.
Proof.
  split; [|split; reflexivity].
  intros a Ha Hm1 Hn1 Hsize. rewrite UINT_MAX_eq in Hsize.
  assert (Z.of_nat (length (elements a)) = Matrix.m a * Matrix.n a) as Hlen.
  { rewrite length_elements by done. nia. }
  split; [done|].
  unfold Matrix.mod_, euclidean_norm, sum_squares.
  assert (Matrix.length a = Z.of_nat (length (elements a))) as ->.
  { rewrite Hlen. unfold Matrix.length, Unsigned.mul, Unsigned.wrap.
    apply Z.mod_small. rewrite modulus_eq. nia. }
  rewrite for_loop_1 by (rewrite UINT_MAX_eq; lia).
  rewrite (for_each_fold (fun sum x => sum + x * x)%float (Matrix.get_linear a));
    [done|].
  intros k x Hk. apply lookup_lt_Some in Hk as Hlt.
  destruct (get_linear_elements a (1 + Z.of_nat k)) as (y & Hy & Hget);
    try done; try (rewrite ?modulus_eq; lia).
  replace (Z.to_nat (1 + Z.of_nat k - 1)) with k in Hy by lia.
  congruence.
Qed.

Lemma mod_euclidean_norm_witness :
  Matrix.wf sample_2x3 /\
  Z.of_nat (length (elements sample_2x3)) = 2 * 3 /\
  Matrix.mod_ sample_2x3 = Ok (euclidean_norm (elements sample_2x3)).
Proof.
  assert (Matrix.wf sample_2x3) as Hwf by solve_wf.
  split; [exact Hwf|].
  apply (proj1 mod_euclidean_norm sample_2x3 Hwf); simpl; try lia.
  vm_compute. reflexivity.
Defined.

(** ** Whether an operation throws depends on shapes only *)

Lemma shape_lookup a b k row :
  shape a = shape b -> Matrix.v a !! k = Some row ->
  exists row', Matrix.v b !! k = Some row' /\ length row' = length row.
Proof.
  unfold shape. intros [= _ _ Hv] Hrow.
  assert ((length <$> Matrix.v b) !! k = Some (length row)) as Hk.
  { by rewrite <- Hv, list_lookup_fmap, Hrow. }
  rewrite list_lookup_fmap in Hk.
  destruct (Matrix.v b !! k) as [row'|]; simplify_eq/=. eauto.
Qed.

Lemma at_same_length {A} (w w' : list A) k x :
  length w' = length w -> at_ w k = Ok x -> exists y, at_ w' k = Ok y.
Proof.
  intros Hlen Hx. apply at_Ok in Hx as [Hk Hx]. apply lookup_lt_Some in Hx.
  apply at_in_range. lia.
Qed.

Lemma get_same_shape a b i j x :
  shape a = shape b -> Matrix.get a i j = Ok x -> exists y, Matrix.get b i j = Ok y.
Proof.
  intros Hshape. unfold Matrix.get. intros (row & Hrow & Hx)%bind_Ok.
  apply at_Ok in Hrow as [Hk Hrow].
  destruct (shape_lookup a b _ row Hshape Hrow) as (row' & Hrow' & Hlen).
  destruct (at_same_length row row' _ x Hlen Hx) as [y Hy].
  exists y. apply bind_Ok. exists row'. split; [|done].
  apply at_Ok. done.
Qed.

Lemma set_same_shape a b i j x y a' :
  shape a = shape b -> Matrix.set a i j x = Ok a' ->
  exists b', Matrix.set b i j y = Ok b' /\ shape a' = shape b'.
Proof.
  intros Hshape. unfold Matrix.set.
  intros (row & Hrow & (z & Hz & [= <-])%bind_Ok)%bind_Ok.
  apply at_Ok in Hrow as [Hk Hrow].
  destruct (shape_lookup a b _ row Hshape Hrow) as (row' & Hrow' & Hlen).
  destruct (at_same_length row row' _ z Hlen Hz) as [z' Hz'].
  eexists. split.
  - apply bind_Ok. exists row'. split; [by apply at_Ok|].
    apply bind_Ok. exists z'. split; [done | reflexivity].
  - revert Hshape. unfold shape. simpl. intros [= -> -> Hv]. f_equal.
    by rewrite !list_fmap_insert, !length_insert, Hlen, Hv.
Qed.

Lemma for_each_sim {I S} (R : S -> S -> Prop) (l : list I)
    (body1 body2 : I -> S -> result S) :
  (forall i s1 s2 s1', R s1 s2 -> body1 i s1 = Ok s1' ->
     exists s2', body2 i s2 = Ok s2' /\ R s1' s2') ->
  forall s1 s2 s1', R s1 s2 -> for_each l body1 s1 = Ok s1' ->
    exists s2', for_each l body2 s2 = Ok s2' /\ R s1' s2'.
Proof.
  intros Hbody. induction l as [|i l IH]; intros s1 s2 s1' HR; simpl.
  - intros [= <-]. eauto.
  - intros (t1 & Ht1 & Hrest)%bind_Ok.
    destruct (Hbody i s1 s2 t1 HR Ht1) as (t2 & -> & HR').
    simpl. by eapply IH.
Qed.

Lemma pointwise_same_shape rows cols (elem1 elem2 : Z -> Z -> result float) w1 :
  (forall i j x, elem1 i j = Ok x -> exists y, elem2 i j = Ok y) ->
  Matrix.pointwise rows cols elem1 = Ok w1 ->
  exists w2, Matrix.pointwise rows cols elem2 = Ok w2 /\ shape w1 = shape w2.
Proof.
  intros Helem. unfold Matrix.pointwise, for_loop.
  destruct (bool_decide (rows < Unsigned.UINT_MAX)); [|done].
  destruct (bool_decide (cols < Unsigned.UINT_MAX)); [|by eauto].
  apply (for_each_sim (fun a b => shape a = shape b)); [|done].
  intros i s1 s2 s1' HR.
  apply (for_each_sim (fun a b => shape a = shape b)); [|done].
  intros j t1 t2 t1' HR' (x & Hx & Hset)%bind_Ok.
  destruct (Helem i j x Hx) as [y ->]. simpl.
  by eapply set_same_shape.
Qed.

Lemma scale_same_shape d c1 c2 w1 :
  Matrix.scale d c1 = Ok w1 ->
  exists w2, Matrix.scale d c2 = Ok w2 /\ shape w1 = shape w2.
Proof.
  apply pointwise_same_shape.
  intros i j x (y & -> & _)%bind_Ok. simpl. eauto.
Qed.

Lemma add_same_shape a o1 o2 w1 :
  shape o1 = shape o2 -> Matrix.add a o1 = Ok w1 ->
  exists w2, Matrix.add a o2 = Ok w2 /\ shape w1 = shape w2.
Proof.
  intros Hshape. apply pointwise_same_shape.
  intros i j x (y & -> & (z & Hz & _)%bind_Ok)%bind_Ok. simpl.
  destruct (get_same_shape o1 o2 i j z Hshape Hz) as [z' ->]. simpl. eauto.
Qed.

(** ** The Armijo line search *)

Section Armijo_facts.

Variable pow : float -> float -> float.
Variable f : Matrix.t -> float.
Variable gradf : Matrix.t -> Matrix.t.
Variables s beta sigma : float.
Variables x d : Matrix.t.

Local Abbreviation test := (armijo_test pow f gradf s beta sigma x d).
Local Abbreviation loop := (fun fuel => armijo_loop pow f gradf fuel s beta sigma x d).
Local Abbreviation call := (fun fuel => armijo_call pow f gradf fuel s beta sigma x d).

(** Whether the test throws does not depend on the exponent: the operands
    of the matrix operations have the same shapes at every exponent. *)
Lemma armijo_test_defined k b :
  test k = Ok b -> forall k', exists b', test k' = Ok b'.
Proof.
  unfold armijo_test.
  intros (step & Hstep & (trial & Htrial & (gt & Hgt & (gd & Hgd &
           (slope & Hslope & _)%bind_Ok)%bind_Ok)%bind_Ok)%bind_Ok)%bind_Ok k'.
  unfold Matrix.scale_left in *.
  destruct (scale_same_shape d _ (s * pow beta (Unsigned.to_double k'))%float
              step Hstep) as (step' & -> & Hshape).
  simpl.
  destruct (add_same_shape x step step' trial Hshape Htrial) as (trial' & -> & _).
  simpl. rewrite Hgt. simpl. rewrite Hgd. simpl. rewrite Hslope. simpl. eauto.
Qed.

Lemma succ_small iter :
  0 <= iter -> iter + 1 < Unsigned.modulus -> Unsigned.succ iter = iter + 1.
Proof.
  intros H0 H1. unfold Unsigned.succ, Unsigned.wrap. apply Z.mod_small. lia.
Qed.

Lemma succ_bounds iter : 0 <= Unsigned.succ iter < Unsigned.modulus.
Proof.
  unfold Unsigned.succ, Unsigned.wrap.
  apply Z.mod_pos_bound. rewrite modulus_eq. lia.
Qed.

Lemma armijo_loop_more_fuel fuel iter r :
  loop fuel iter = Some r -> forall fuel', (fuel <= fuel')%nat -> loop fuel' iter = Some r.
Proof.
  revert iter. induction fuel as [|fuel IH]; intros iter Hrun fuel' Hle; [done|].
  destruct fuel' as [|fuel']; [lia|]. simpl in *.
  destruct (test iter) as [[|]|e]; try done.
  apply IH; [done | lia].
Qed.

(** The loop stops at an exponent where the test holds. *)
Lemma armijo_loop_stops fuel iter k :
  0 <= iter < Unsigned.modulus ->
  loop fuel iter = Some (Ok k) ->
  0 <= k < Unsigned.modulus /\ test k = Ok true.
Proof.
  revert iter. induction fuel as [|fuel IH]; intros iter Hiter; [done|]. simpl.
  destruct (test iter) as [[|]|e] eqn:Htest; try done.
  - by intros [= <-].
  - apply IH, succ_bounds.
Qed.

(** Started [n] exponents before the first one at which the test holds,
    the loop stops there. *)
Lemma armijo_loop_first (n : nat) iter :
  0 <= iter -> iter + Z.of_nat n < Unsigned.modulus ->
  (forall j, iter <= j < iter + Z.of_nat n -> test j = Ok false) ->
  test (iter + Z.of_nat n) = Ok true ->
  loop (S n) iter = Some (Ok (iter + Z.of_nat n)).
Proof.
  revert iter. induction n as [|n IH]; intros iter H0 Hlt Hbefore Hat.
  - simpl. rewrite Z.add_0_r in *. by rewrite Hat.
  - cbn [armijo_loop]. rewrite Hbefore by lia.
    rewrite succ_small by lia.
    replace (iter + Z.of_nat (S n)) with (iter + 1 + Z.of_nat n) in * by lia.
    apply IH; try lia; try done.
    intros j Hj. apply Hbefore. lia.
Qed.

(** Where the test holds at some exponent and throws at none, there is a
    first exponent at which it holds. *)
Lemma first_exponent (n : nat) iter :
  (forall j, exists b, test j = Ok b) ->
  test (iter + Z.of_nat n) = Ok true ->
  exists n0 : nat, (n0 <= n)%nat /\
    test (iter + Z.of_nat n0) = Ok true /\
    forall j, iter <= j < iter + Z.of_nat n0 -> test j = Ok false.
Proof.
  intros Hdef. revert iter. induction n as [|n IH]; intros iter Hat.
  - exists 0%nat. split_and!; [done..|]. intros j Hj. lia.
  - destruct (Hdef iter) as [[|] Hiter].
    + exists 0%nat. rewrite Z.add_0_r. split_and!; [lia|done|]. intros j Hj. lia.
    + replace (iter + Z.of_nat (S n)) with (iter + 1 + Z.of_nat n) in Hat by lia.
      destruct (IH (iter + 1) Hat) as (n0 & Hle & Hat0 & Hbefore).
      exists (S n0).
      replace (iter + Z.of_nat (S n0)) with (iter + 1 + Z.of_nat n0) by lia.
      split_and!; [lia|done|]. intros j Hj.
      destruct (decide (j = iter)) as [->|Hne]; [done|]. apply Hbefore. lia.
Qed.

Lemma armijo_loop_never fuel iter :
  (forall k, 0 <= k < Unsigned.modulus -> test k = Ok false) ->
  0 <= iter < Unsigned.modulus ->
  loop fuel iter = None.
Proof.
  intros Hfalse. revert iter. induction fuel as [|fuel IH]; intros iter Hiter; [done|].
  simpl. rewrite Hfalse by done. apply IH, succ_bounds.
Qed.

(** The test at exponent [k] evaluates to [b] exactly when the trial point
    [x + s * pow(beta, k) * d] and the slope [(gradf(x).t() * d).x()] are
    computed and the comparison of the two sides gives [b]. *)
Lemma armijo_test_spelled k b :
  test k = Ok b <->
  exists step trial gt gd slope,
    Matrix.scale_left (s * pow beta (Unsigned.to_double k))%float d = Ok step /\
    Matrix.add x step = Ok trial /\
    Matrix.t_ (gradf x) = Ok gt /\ Matrix.mul gt d = Ok gd /\
    Matrix.x gd = Ok slope /\
    PrimFloat.leb (- sigma * s * pow beta (Unsigned.to_double k) * slope)%float
      (f x - f trial)%float = b.
Proof.
  unfold armijo_test. split.
  - intros (step & Hstep & (trial & Htrial & (gt & Hgt & (gd & Hgd &
             (slope & Hslope & [= Hleb])%bind_Ok)%bind_Ok)%bind_Ok)%bind_Ok)%bind_Ok.
    exists step, trial, gt, gd, slope. done.
  - intros (step & trial & gt & gd & slope & -> & Htrial & Hgt & Hgd & Hslope & <-).
    simpl. rewrite Htrial. simpl. rewrite Hgt. simpl. rewrite Hgd. simpl.
    by rewrite Hslope.
Qed.

(** C2: if for some exponent [k] (a value of the [unsigned] counter) the
    sufficient-decrease inequality
    [f(x) - f(x + s * beta^k * d) >= -sigma * s * beta^k * (gradf(x)^t d)]
    holds, the line search returns [t = s * beta^m] for the smallest
    exponent [m] at which the inequality holds: it holds at [m] and is
    false at every smaller exponent. *)
Theorem armijo_returns_first_step (k : Z) :
  0 <= k < Unsigned.modulus ->
  (exists step trial gt gd slope,
     Matrix.scale_left (s * pow beta (Unsigned.to_double k))%float d = Ok step /\
     Matrix.add x step = Ok trial /\
     Matrix.t_ (gradf x) = Ok gt /\ Matrix.mul gt d = Ok gd /\
     Matrix.x gd = Ok slope /\
     PrimFloat.leb (- sigma * s * pow beta (Unsigned.to_double k) * slope)%float
       (f x - f trial)%float = true) ->
  exists m0,
    0 <= m0 <= k /\
    (exists step trial gt gd slope,
       Matrix.scale_left (s * pow beta (Unsigned.to_double m0))%float d = Ok step /\
       Matrix.add x step = Ok trial /\
       Matrix.t_ (gradf x) = Ok gt /\ Matrix.mul gt d = Ok gd /\
       Matrix.x gd = Ok slope /\
       PrimFloat.leb (- sigma * s * pow beta (Unsigned.to_double m0) * slope)%float
         (f x - f trial)%float = true) /\
    (forall j, 0 <= j < m0 ->
       exists step trial gt gd slope,
         Matrix.scale_left (s * pow beta (Unsigned.to_double j))%float d = Ok step /\
         Matrix.add x step = Ok trial /\
         Matrix.t_ (gradf x) = Ok gt /\ Matrix.mul gt d = Ok gd /\
         Matrix.x gd = Ok slope /\
         PrimFloat.leb (- sigma * s * pow beta (Unsigned.to_double j) * slope)%float
           (f x - f trial)%float = false) /\
    forall fuel, (Z.to_nat m0 < fuel)%nat ->
      armijo_call pow f gradf fuel s beta sigma x d
      = Some (Ok (s * pow beta (Unsigned.to_double m0))%float).
Proof.
  intros Hk Hat. apply armijo_test_spelled in Hat.
  destruct (first_exponent (Z.to_nat k) 0) as (n0 & Hle & Hat0 & Hbefore).
  { by eapply armijo_test_defined. }
  { by rewrite Z.add_0_l, Z2Nat.id by lia. }
  rewrite Z.add_0_l in Hat0, Hbefore.
  exists (Z.of_nat n0). split_and!; [lia..| | |].
  - by apply armijo_test_spelled.
  - intros j Hj. by apply armijo_test_spelled, Hbefore.
  - intros fuel Hfuel. unfold armijo_call.
    assert (loop (S n0) 0 = Some (Ok (Z.of_nat n0))) as Hrun.
    { rewrite <- (Z.add_0_l (Z.of_nat n0)) at 1.
      apply armijo_loop_first; rewrite ?Z.add_0_l; try done; lia. }
    rewrite (armijo_loop_more_fuel (S n0) 0 (Ok (Z.of_nat n0))); [done|done|lia].
Qed.

(** C3: the loop has no iteration cap. The line search returns a step if
    and only if the test holds at some exponent; if the test is false at
    every exponent, the call does not return, whatever the fuel. *)
Theorem armijo_terminates_iff :
  ((exists fuel t, armijo_call pow f gradf fuel s beta sigma x d = Some (Ok t))
   <-> exists k, 0 <= k < Unsigned.modulus /\
                 armijo_test pow f gradf s beta sigma x d k = Ok true) /\
  ((forall k, 0 <= k < Unsigned.modulus ->
      armijo_test pow f gradf s beta sigma x d k = Ok false) ->
   forall fuel, armijo_call pow f gradf fuel s beta sigma x d = None).
Proof.
  split; [split|].
  - intros (fuel & t & Hcall). unfold armijo_call in Hcall.
    destruct (armijo_loop _ _ _ _ _ _ _ _ _ _) as [[k|e]|] eqn:Hloop; try done.
    exists k. eapply armijo_loop_stops; [|exact Hloop]. rewrite modulus_eq. lia.
  - intros (k & Hk & Hat).
    destruct (first_exponent (Z.to_nat k) 0) as (n0 & Hle & Hat0 & Hbefore).
    { by eapply armijo_test_defined. }
    { by rewrite Z.add_0_l, Z2Nat.id by lia. }
    exists (S n0), (s * pow beta (Unsigned.to_double (0 + Z.of_nat n0)))%float.
    unfold armijo_call. rewrite armijo_loop_first; try done; lia.
  - intros Hfalse fuel. unfold armijo_call.
    rewrite armijo_loop_never; [done..|]. rewrite modulus_eq. lia.
Qed.

End Armijo_facts.

(** From [(1, 0)] along [(-2, 0)] with [s = beta = sigma = 0.8] and the
    objective [x1 * x1], the inequality holds at exponent 9; it is false at
    the exponents 0 to 6 and holds at 7, and the step returned is
    [0.8 * 0.8^7]. *)
Lemma armijo_returns_first_step_witness :
  (exists step trial gt gd slope,
     Matrix.scale_left (c08 * sample_pow c08 (Unsigned.to_double 9))%float
       (Matrix.of_vector [-2; 0]%float) = Ok step /\
     Matrix.add sample_x0 step = Ok trial /\
     Matrix.t_ (sample_gradf sample_x0) = Ok gt /\
     Matrix.mul gt (Matrix.of_vector [-2; 0]%float) = Ok gd /\
     Matrix.x gd = Ok slope /\
     PrimFloat.leb (- c08 * c08 * sample_pow c08 (Unsigned.to_double 9) * slope)%float
       (sample_f sample_x0 - sample_f trial)%float = true) /\
  (exists step trial gt gd slope,
     Matrix.scale_left (c08 * sample_pow c08 (Unsigned.to_double 7))%float
       (Matrix.of_vector [-2; 0]%float) = Ok step /\
     Matrix.add sample_x0 step = Ok trial /\
     Matrix.t_ (sample_gradf sample_x0) = Ok gt /\
     Matrix.mul gt (Matrix.of_vector [-2; 0]%float) = Ok gd /\
     Matrix.x gd = Ok slope /\
     PrimFloat.leb (- c08 * c08 * sample_pow c08 (Unsigned.to_double 7) * slope)%float
       (sample_f sample_x0 - sample_f trial)%float = true) /\
  (forall j, 0 <= j < 7 ->
     exists step trial gt gd slope,
       Matrix.scale_left (c08 * sample_pow c08 (Unsigned.to_double j))%float
         (Matrix.of_vector [-2; 0]%float) = Ok step /\
       Matrix.add sample_x0 step = Ok trial /\
       Matrix.t_ (sample_gradf sample_x0) = Ok gt /\
       Matrix.mul gt (Matrix.of_vector [-2; 0]%float) = Ok gd /\
       Matrix.x gd = Ok slope /\
       PrimFloat.leb (- c08 * c08 * sample_pow c08 (Unsigned.to_double j) * slope)%float
         (sample_f sample_x0 - sample_f trial)%float = false) /\
  (c08 * sample_pow c08 (Unsigned.to_double 7))%float = 0x1.5798ee2308c3dp-3%float /\
  forall fuel, (7 < fuel)%nat ->
    armijo_call sample_pow sample_f sample_gradf fuel c08 c08 c08 sample_x0
      (Matrix.of_vector [-2; 0]%float)
    = Some (Ok 0x1.5798ee2308c3dp-3%float).
Proof.
  assert (forall j b,
            armijo_test sample_pow sample_f sample_gradf c08 c08 c08 sample_x0
              (Matrix.of_vector [-2; 0]%float) j = Ok b ->
            exists step trial gt gd slope,
              Matrix.scale_left (c08 * sample_pow c08 (Unsigned.to_double j))%float
                (Matrix.of_vector [-2; 0]%float) = Ok step /\
              Matrix.add sample_x0 step = Ok trial /\
              Matrix.t_ (sample_gradf sample_x0) = Ok gt /\
              Matrix.mul gt (Matrix.of_vector [-2; 0]%float) = Ok gd /\
              Matrix.x gd = Ok slope /\
              PrimFloat.leb
                (- c08 * c08 * sample_pow c08 (Unsigned.to_double j) * slope)%float
                (sample_f sample_x0 - sample_f trial)%float = b) as Hspell.
  { intros j b. apply armijo_test_spelled. }
  assert (forall j b,
            (exists step trial gt gd slope,
              Matrix.scale_left (c08 * sample_pow c08 (Unsigned.to_double j))%float
                (Matrix.of_vector [-2; 0]%float) = Ok step /\
              Matrix.add sample_x0 step = Ok trial /\
              Matrix.t_ (sample_gradf sample_x0) = Ok gt /\
              Matrix.mul gt (Matrix.of_vector [-2; 0]%float) = Ok gd /\
              Matrix.x gd = Ok slope /\
              PrimFloat.leb
                (- c08 * c08 * sample_pow c08 (Unsigned.to_double j) * slope)%float
                (sample_f sample_x0 - sample_f trial)%float = b) ->
            armijo_test sample_pow sample_f sample_gradf c08 c08 c08 sample_x0
              (Matrix.of_vector [-2; 0]%float) j = Ok b) as Hfold.
  { intros j b. apply armijo_test_spelled. }
  assert (c08 * sample_pow c08 (Unsigned.to_double 7) = 0x1.5798ee2308c3dp-3)%float
    as Hstep by reflexivity.
  destruct (armijo_returns_first_step sample_pow sample_f sample_gradf
              c08 c08 c08 sample_x0 (Matrix.of_vector [-2; 0]%float) 9)
    as (m0 & Hm0 & Hat & Hbefore & Hcall).
  { rewrite modulus_eq. lia. }
  { apply Hspell. reflexivity. }
  assert (m0 = 7) as ->.
  { apply Hfold in Hat.
    assert (forall j, 0 <= j < m0 ->
              armijo_test sample_pow sample_f sample_gradf c08 c08 c08 sample_x0
                (Matrix.of_vector [-2; 0]%float) j = Ok false) as Hbefore'.
    { intros j Hj. apply Hfold, Hbefore, Hj. }
    destruct (decide (m0 < 7)) as [Hlt|Hge].
    - assert (m0 = 0 \/ m0 = 1 \/ m0 = 2 \/ m0 = 3 \/ m0 = 4 \/ m0 = 5 \/ m0 = 6)
        as Hcases by lia.
      destruct Hcases as [->|[->|[->|[->|[->|[->| ->]]]]]];
        vm_compute in Hat; discriminate Hat.
    - destruct (decide (m0 = 7)) as [->|Hne]; [done|].
      specialize (Hbefore' 7 ltac:(lia)).
      vm_compute in Hbefore'. discriminate Hbefore'. }
  split; [apply Hspell; reflexivity|].
  split; [exact Hat|]. split; [exact Hbefore|]. split; [exact Hstep|].
  intros fuel Hfuel. rewrite <- Hstep. apply Hcall. simpl. lia.
Defined.

(** With [beta = 1.0] the power is [1.0] at every exponent. Along the
    descent direction the search returns; along the opposite direction the
    test is false at every exponent and the search never returns. *)
Lemma armijo_terminates_iff_witness :
  (exists fuel t,
     armijo_call sample_pow sample_f sample_gradf fuel c08 c08 c08 sample_x0
       (Matrix.of_vector [-2; 0]%float) = Some (Ok t)) /\
  (forall fuel,
     armijo_call (fun _ _ => 1%float) sample_f sample_gradf fuel c08 1 c08
       sample_x0 (Matrix.of_vector [2; 0]%float) = None).
Proof.
  split.
  - apply (armijo_terminates_iff sample_pow sample_f sample_gradf
             c08 c08 c08 sample_x0 (Matrix.of_vector [-2; 0]%float)).
    exists 7. split; [rewrite modulus_eq; lia | reflexivity].
  - apply (armijo_terminates_iff (fun _ _ => 1%float) sample_f sample_gradf
             c08 1 c08 sample_x0 (Matrix.of_vector [2; 0]%float)).
    intros k _. reflexivity.
Defined.

(** ** The gradient method *)

Section Descent_facts.

Variable pow : float -> float -> float.
Variable f : Matrix.t -> float.
Variable gradf : Matrix.t -> Matrix.t.

Lemma gradient_loop_sound fuel epsilon xk x :
  gradient_loop pow f gradf fuel epsilon xk = Some (Ok x) ->
  descent_run pow f gradf epsilon xk x /\
  exists norm, Matrix.mod_ (gradf x) = Ok norm /\ PrimFloat.ltb norm epsilon = true.
Proof.
  revert xk. induction fuel as [|fuel IH]; intros xk; [done|]. simpl.
  destruct (Matrix.mod_ (gradf xk)) as [norm|e] eqn:Hnorm; [|done].
  destruct (PrimFloat.ltb norm epsilon) eqn:Hlt.
  - intros [= <-]. split; [by eapply descent_converged | eauto].
  - destruct (descent_direction gradf xk) as [dk|e] eqn:Hdk; [|done].
    destruct (armijo_call _ _ _ _ _ _ _ _ _) as [[ak|e]|] eqn:Hak; try done.
    destruct (next_iterate xk dk ak) as [xnext|e] eqn:Hnext; [|done].
    intros Hrun. destruct (IH xnext Hrun) as [Hdescent Hfinal].
    split; [|done].
    unfold next_iterate in Hnext. apply bind_Ok in Hnext as (step & Hstep & Hadd).
    by eapply descent_step.
Qed.

(** C1: when [gradient_method] returns, the norm of the gradient at the
    returned iterate is below [epsilon], and the iterates from [x0] to the
    returned one are linked by iterations that each take the direction
    [dk = (-1) * gradf(xk)], the step [ak] of the line search called with
    [s = beta = sigma = 0.8], and the next iterate [xk + ak * dk]. *)
Theorem gradient_method_converged fuel x0 epsilon x :
  gradient_method pow f gradf fuel x0 epsilon = Some (Ok x) ->
  (exists norm,
     Matrix.mod_ (gradf x) = Ok norm /\ PrimFloat.ltb norm epsilon = true) /\
  descent_run pow f gradf epsilon x0 x.
Proof.
  unfold gradient_method.
  destruct (print_point x0) as [?|e]; [|done].
  destruct (gradient_loop _ _ _ _ _ _) as [[xk|e]|] eqn:Hloop; try done.
  destruct (print_point xk) as [?|e]; [|done].
  intros [= <-]. apply gradient_loop_sound in Hloop as [Hrun Hnorm]. done.
Qed.

(** C10: a start point that is not a 2x1 matrix makes [gradient_method]
    throw "Not a 2x1 column vector" before the loop is entered, whatever
    the gradient at the start point is. *)
Theorem gradient_method_rejects_start fuel x0 epsilon :
  ~ (Matrix.m x0 = 2 /\ Matrix.n x0 = 1) ->
  gradient_method pow f gradf fuel x0 epsilon
  = Some (Throw (invalid_argument "Not a 2x1 column vector")).
Proof.
  intros Hshape. unfold gradient_method, print_point, Matrix.x1.
  assert (bool_decide (Matrix.m x0 = 2) && bool_decide (Matrix.n x0 = 1) = false)
    as ->; [|done].
  apply andb_false_iff. rewrite !bool_decide_eq_false.
  destruct (decide (Matrix.m x0 = 2)); [right|left]; tauto.
Qed.

End Descent_facts.

Lemma gradient_method_converged_witness :
  gradient_method sample_pow sample_f sample_gradf 30 sample_x0 0.5
    = Some (Ok sample_limit) /\
  (exists norm,
     Matrix.mod_ (sample_gradf sample_limit)
       = Ok norm /\ PrimFloat.ltb norm 0.5 = true) /\
  descent_run sample_pow sample_f sample_gradf 0.5 sample_x0
    sample_limit.
Proof.
  assert (gradient_method sample_pow sample_f sample_gradf 30 sample_x0 0.5
          = Some (Ok sample_limit)) as Hrun
    by (vm_compute; reflexivity).
  split; [exact Hrun|].
  exact (gradient_method_converged sample_pow sample_f sample_gradf 30 sample_x0
           0.5 _ Hrun).
Defined.

(** The constant gradient has norm [0 < 1]: the loop would stop at once. *)
Lemma gradient_method_rejects_start_witness :
  ~ (Matrix.m sample_1x1 = 2 /\ Matrix.n sample_1x1 = 1) /\
  Matrix.mod_ (Matrix.fill 1 1 0) = Ok 0%float /\
  PrimFloat.ltb 0 1 = true /\
  gradient_method sample_pow sample_f (fun _ => Matrix.fill 1 1 0) 30 sample_1x1 1
  = Some (Throw (invalid_argument "Not a 2x1 column vector")).
Proof.
  assert (~ (Matrix.m sample_1x1 = 2 /\ Matrix.n sample_1x1 = 1)) as Hshape.
  { simpl. lia. }
  split; [exact Hshape|]. split; [reflexivity|]. split; [reflexivity|].
  exact (gradient_method_rejects_start sample_pow sample_f
           (fun _ => Matrix.fill 1 1 0) 30 sample_1x1 1 Hshape).
Defined.

(** * Further properties of the matrix class *)

(** ** Bounds of the two-index accessors *)

Lemma sub_1_lt i b :
  0 <= i < Unsigned.modulus -> 0 <= b < Unsigned.UINT_MAX ->
  Unsigned.sub i 1 < b <-> 1 <= i <= b.
Proof.
  rewrite modulus_eq, UINT_MAX_eq. intros Hi Hb.
  destruct (decide (i = 0)) as [->|Hne].
  - rewrite sub_1_zero, UINT_MAX_eq. lia.
  - rewrite sub_1_small by (rewrite modulus_eq; lia). lia.
Qed.

Lemma sub_1_nonneg i : 0 <= Unsigned.sub i 1.
Proof.
  unfold Unsigned.sub, Unsigned.wrap.
  apply Z.mod_pos_bound. rewrite modulus_eq. lia.
Qed.

Lemma wf_get_outside a i j :
  Matrix.wf a -> 0 <= i < Unsigned.modulus -> 0 <= j < Unsigned.modulus ->
  ~ (1 <= i <= Matrix.m a /\ 1 <= j <= Matrix.n a) ->
  Matrix.get a i j = Throw out_of_range /\
  forall value, Matrix.set a i j value = Throw out_of_range.
Proof.
  intros Ha Hi Hj Hout. pose proof Ha as (Hm & Hn & Hlen & Hrows).
  pose proof (sub_1_lt i (Matrix.m a) Hi Hm) as Hrow.
  pose proof (sub_1_lt j (Matrix.n a) Hj Hn) as Hcol.
  pose proof (sub_1_nonneg i) as Hi0. pose proof (sub_1_nonneg j) as Hj0.
  unfold Matrix.get, Matrix.set.
  destruct (decide (1 <= i <= Matrix.m a)) as [Hin|Hnin].
  - destruct (at_in_range (Matrix.v a) (Unsigned.sub i 1)) as [r Hr]; [lia|].
    rewrite Hr. simpl. apply at_Ok in Hr as [_ Hr].
    rewrite Forall_lookup in Hrows. apply Hrows in Hr.
    rewrite at_out_of_range by lia. done.
  - rewrite at_out_of_range by lia. done.
Qed.

(** X1: on a well-formed matrix [get(i, j)] and [set(i, j, v)] succeed
    exactly for [1 <= i <= m] and [1 <= j <= n]; any other pair of unsigned
    indices, the index 0 included, throws [out_of_range]. *)
Theorem get_set_bounds (a : Matrix.t) (i j : Z) :
  Matrix.wf a -> 0 <= i < Unsigned.modulus -> 0 <= j < Unsigned.modulus ->
  (1 <= i <= Matrix.m a /\ 1 <= j <= Matrix.n a ->
     (exists x, Matrix.get a i j = Ok x) /\
     forall value, exists a', Matrix.set a i j value = Ok a') /\
  (~ (1 <= i <= Matrix.m a /\ 1 <= j <= Matrix.n a) ->
     Matrix.get a i j = Throw out_of_range /\
     forall value, Matrix.set a i j value = Throw out_of_range).
Proof.
  intros Ha Hi Hj. split.
  - intros [Hi' Hj']. split; [by apply wf_get_in_range|].
    intros value.
    destruct (wf_set_in_range a i j value Ha Hi' Hj') as (a' & Hset & _). eauto.
  - by apply wf_get_outside.
Qed.

Lemma get_set_bounds_witness :
  Matrix.wf sample_2x3 /\
  (exists x, Matrix.get sample_2x3 2 3 = Ok x) /\
  Matrix.get sample_2x3 0 1 = Throw out_of_range /\
  Matrix.get sample_2x3 3 1 = Throw out_of_range /\
  (forall value, Matrix.set sample_2x3 1 4 value = Throw out_of_range).
Proof.
  assert (Matrix.wf sample_2x3) as Hwf by solve_wf.
  split; [exact Hwf|]. split_and!.
  - apply (get_set_bounds sample_2x3 2 3 Hwf); rewrite ?modulus_eq; simpl; lia.
  - apply (get_set_bounds sample_2x3 0 1 Hwf); rewrite ?modulus_eq; simpl; lia.
  - apply (get_set_bounds sample_2x3 3 1 Hwf); rewrite ?modulus_eq; simpl; lia.
  - apply (get_set_bounds sample_2x3 1 4 Hwf); rewrite ?modulus_eq; simpl; lia.
Defined.

(** X2: a successful [set(i, j, v)] keeps the matrix well formed and its
    dimensions, makes [get(i, j)] return [v], and leaves every other element
    as it was. *)
Theorem set_then_get (a a' : Matrix.t) (i j : Z) (value : float) :
  Matrix.wf a -> 0 <= i < Unsigned.modulus -> 0 <= j < Unsigned.modulus ->
  Matrix.set a i j value = Ok a' ->
  Matrix.wf a' /\ Matrix.m a' = Matrix.m a /\ Matrix.n a' = Matrix.n a /\
  Matrix.get a' i j = Ok value /\
  forall i' j', 1 <= i' <= Matrix.m a -> 1 <= j' <= Matrix.n a ->
    (i', j') <> (i, j) -> Matrix.get a' i' j' = Matrix.get a i' j'.
Proof.
  intros Ha Hi Hj Hset.
  destruct (decide (1 <= i <= Matrix.m a /\ 1 <= j <= Matrix.n a)) as [[Hi' Hj']|Hout].
  - destruct (wf_set_in_range a i j value Ha Hi' Hj')
      as (b & Hb & Hshape & Hread & Hframe).
    assert (b = a') as -> by congruence.
    destruct (shape_dims _ _ Hshape) as [Hm Hn].
    split_and!; try done. by eapply wf_shape.
  - destruct (wf_get_outside a i j Ha Hi Hj Hout) as [_ Hthrow].
    rewrite Hthrow in Hset. discriminate.
Qed.

Lemma set_then_get_witness :
  Matrix.wf sample_2x3 /\
  Matrix.set sample_2x3 2 1 9 = Ok (Matrix.mk 2 3 [[1; 2; 3]; [9; 5; 6]]%float) /\
  Matrix.get (Matrix.mk 2 3 [[1; 2; 3]; [9; 5; 6]]%float) 2 1 = Ok 9%float.
Proof.
  assert (Matrix.wf sample_2x3) as Hwf by solve_wf.
  assert (Matrix.set sample_2x3 2 1 9
          = Ok (Matrix.mk 2 3 [[1; 2; 3]; [9; 5; 6]]%float)) as Hset by reflexivity.
  split; [exact Hwf|]. split; [exact Hset|].
  apply (set_then_get sample_2x3 _ 2 1 9%float Hwf); rewrite ?modulus_eq; try lia.
  exact Hset.
Defined.

(** ** Constructors *)

Lemma entry_fill rows cols value r c :
  (r < Z.to_nat rows)%nat -> (c < Z.to_nat cols)%nat ->
  entry (Matrix.fill rows cols value) r c = Some value.
Proof.
  intros Hr Hc. unfold entry, Matrix.fill. simpl.
  rewrite lookup_replicate_2 by done. simpl. by apply lookup_replicate_2.
Qed.

Lemma get_fill rows cols value i j :
  0 <= rows < Unsigned.UINT_MAX -> 0 <= cols < Unsigned.UINT_MAX ->
  1 <= i <= rows -> 1 <= j <= cols ->
  Matrix.get (Matrix.fill rows cols value) i j = Ok value.
Proof.
  rewrite UINT_MAX_eq. intros Hrows Hcols Hi Hj.
  apply get_Ok_entry; try (rewrite modulus_eq; lia).
  apply entry_fill; lia.
Qed.

(** X3: [Matrix(rows, cols, value)] is a well-formed [rows x cols] matrix
    all of whose elements read back as [value]; a zero dimension gives a
    matrix with no readable element. *)
Theorem fill_constructor (rows cols : Z) (value : float) :
  0 <= rows < Unsigned.UINT_MAX -> 0 <= cols < Unsigned.UINT_MAX ->
  Matrix.wf (Matrix.fill rows cols value) /\
  Matrix.getRows (Matrix.fill rows cols value) = rows /\
  Matrix.getCols (Matrix.fill rows cols value) = cols /\
  (forall i j, 1 <= i <= rows -> 1 <= j <= cols ->
     Matrix.get (Matrix.fill rows cols value) i j = Ok value) /\
  (rows = 0 \/ cols = 0 ->
     forall i j, 0 <= i < Unsigned.modulus -> 0 <= j < Unsigned.modulus ->
       Matrix.get (Matrix.fill rows cols value) i j = Throw out_of_range).
Proof.
  intros Hrows Hcols. pose proof (wf_fill rows cols value Hrows Hcols) as Hwf.
  split_and!; try done.
  - intros i j Hi Hj. by apply get_fill.
  - intros Hzero i j Hi Hj. apply wf_get_outside; try done. simpl. lia.
Qed.

Lemma fill_constructor_witness :
  Matrix.wf (Matrix.fill 2 3 7) /\
  Matrix.get (Matrix.fill 2 3 7) 2 3 = Ok 7%float /\
  Matrix.get (Matrix.fill 0 3 7) 1 1 = Throw out_of_range.
Proof.
  split_and!.
  - apply (fill_constructor 2 3 7%float); rewrite UINT_MAX_eq; lia.
  - apply (fill_constructor 2 3 7%float); rewrite ?UINT_MAX_eq; lia.
  - apply (fill_constructor 0 3 7%float); rewrite ?UINT_MAX_eq, ?modulus_eq; lia.
Defined.

(** X4: [Matrix(const vector<double>&)] builds a well-formed column vector:
    as many rows as the vector has elements, one column, and [get(k + 1, 1)]
    is the element of index [k]. *)
Theorem of_vector_constructor (w : list float) :
  Z.of_nat (length w) < Unsigned.UINT_MAX ->
  Matrix.wf (Matrix.of_vector w) /\
  Matrix.getRows (Matrix.of_vector w) = Z.of_nat (length w) /\
  Matrix.getCols (Matrix.of_vector w) = 1 /\
  Matrix.isVector (Matrix.of_vector w) = true /\
  forall (k : nat) x, w !! k = Some x ->
    Matrix.get (Matrix.of_vector w) (Z.of_nat k + 1) 1 = Ok x.
Proof.
  intros Hlen. rewrite UINT_MAX_eq in Hlen.
  assert (Matrix.wf (Matrix.of_vector w)) as Hwf.
  { unfold Matrix.wf, Matrix.of_vector. simpl. rewrite UINT_MAX_eq.
    split_and!; try lia.
    - rewrite length_fmap. lia.
    - apply Forall_fmap, Forall_forall. intros x _. reflexivity. }
  split_and!; try done.
  - unfold Matrix.isVector. simpl. apply orb_true_r.
  - intros k x Hk. apply lookup_lt_Some in Hk as Hlt.
    apply get_Ok_entry; try (rewrite modulus_eq; lia).
    unfold entry, Matrix.of_vector. simpl.
    replace (Z.to_nat (Z.of_nat k + 1 - 1)) with k by lia.
    by rewrite list_lookup_fmap, Hk.
Qed.

Lemma of_vector_constructor_witness :
  Matrix.wf (Matrix.of_vector [3; 4; 5]%float) /\
  Matrix.get (Matrix.of_vector [3; 4; 5]%float) 3 1 = Ok 5%float.
Proof.
  split.
  - apply (of_vector_constructor [3; 4; 5]%float). rewrite UINT_MAX_eq. simpl. lia.
  - apply (of_vector_constructor [3; 4; 5]%float) with (k := 2%nat);
      [rewrite UINT_MAX_eq; simpl; lia | reflexivity].
Defined.

(** X5: [Matrix(const vector<vector<double>>&)] on rows of one common
    length builds the well-formed matrix whose [get(r + 1, c + 1)] is
    element [c] of row [r]; the dimensions are the number of rows and the
    length of the first row. *)
Theorem of_rows_constructor (r0 : list float) (rest : list (list float)) :
  Z.of_nat (length (r0 :: rest)) < Unsigned.UINT_MAX ->
  Z.of_nat (length r0) < Unsigned.UINT_MAX ->
  Forall (fun r => length r = length r0) rest ->
  exists a, Matrix.of_rows (r0 :: rest) = Ok a /\
    Matrix.wf a /\
    Matrix.getRows a = Z.of_nat (length (r0 :: rest)) /\
    Matrix.getCols a = Z.of_nat (length r0) /\
    forall (r c : nat) rw x, (r0 :: rest) !! r = Some rw -> rw !! c = Some x ->
      Matrix.get a (Z.of_nat r + 1) (Z.of_nat c + 1) = Ok x.
Proof.
  intros Hrows Hcols Hrect. rewrite UINT_MAX_eq in Hrows, Hcols.
  eexists. split; [reflexivity|].
  split_and!; try done.
  - unfold Matrix.wf.
    cbn [Matrix.m Matrix.n Matrix.v]. rewrite UINT_MAX_eq.
    split_and!; try lia.
    constructor; [lia|]. eapply Forall_impl; [exact Hrect|].
    simpl. intros r Hr. lia.
  - intros r c rw x Hr Hx.
    apply lookup_lt_Some in Hr as Hlt.
    assert (length rw = length r0) as Hlen.
    { destruct r as [|r]; simpl in Hr; [congruence|].
      rewrite Forall_lookup in Hrect. by eapply Hrect. }
    apply lookup_lt_Some in Hx as Hltc.
    apply get_Ok_entry; try (rewrite modulus_eq; lia).
    unfold entry. simpl Matrix.v.
    replace (Z.to_nat (Z.of_nat r + 1 - 1)) with r by lia.
    replace (Z.to_nat (Z.of_nat c + 1 - 1)) with c by lia.
    rewrite Hr. simpl. exact Hx.
Qed.

Lemma of_rows_constructor_witness :
  exists a, Matrix.of_rows [[1; 2]; [3; 4]]%float = Ok a /\
    Matrix.wf a /\ Matrix.getRows a = 2 /\ Matrix.getCols a = 2 /\
    Matrix.get a 2 1 = Ok 3%float.
Proof.
  destruct (of_rows_constructor [1; 2]%float [[3; 4]%float])
    as (a & Ha & Hwf & Hm & Hn & Hget).
  - rewrite UINT_MAX_eq. simpl. lia.
  - rewrite UINT_MAX_eq. simpl. lia.
  - repeat constructor.
  - exists a. split_and!; try done.
    apply (Hget 1%nat 0%nat [3; 4]%float 3%float); reflexivity.
Defined.

(** ** The identity matrix *)

Lemma eye_spec k :
  0 <= k < Unsigned.UINT_MAX ->
  exists w, Matrix.eye k = Ok w /\
    Matrix.wf w /\ Matrix.m w = k /\ Matrix.n w = k /\
    forall i j, 1 <= i <= k -> 1 <= j <= k ->
      Matrix.get w i j = Ok (if decide (i = j) then 1 else 0)%float.
Proof.
  intros Hk. pose proof (wf_fill k k 0 Hk Hk) as Hwf.
  destruct (for_each_set ((fun i => (i, i)) <$> seqZ 1 k) (fun p => p)
              (fun _ => Ok 1%float) (Matrix.fill k k 0))
    as (w & Hrun & Hshape & Hwritten & Hframe); try done.
  - intros p Hp. apply list_elem_of_fmap in Hp as (i & -> & Hi).
    apply elem_of_seqZ in Hi. simpl. lia.
  - intros p _. eauto.
  - exists w. destruct (shape_dims _ _ Hshape) as [Hm Hn]. simpl in Hm, Hn.
    split_and!; try done.
    + unfold Matrix.eye. rewrite for_loop_1 by lia.
      rewrite for_each_fmap in Hrun. exact Hrun.
    + by eapply wf_shape.
    + intros i j Hi Hj. destruct (decide (i = j)) as [->|Hne].
      * apply (Hwritten (j, j)). apply list_elem_of_fmap.
        exists j. split; [done|]. apply elem_of_seqZ. lia.
      * rewrite Hframe; [by apply get_fill|done..|].
        intros Hin. apply list_elem_of_fmap in Hin as (p & <- & Hin).
        apply list_elem_of_fmap in Hin as (i' & Heq & _).
        apply Hne. injection Heq as Hi' Hj'. lia.
Qed.

(** X6: [eye(n)] is the well-formed [n x n] matrix with 1.0 on the diagonal
    and 0.0 everywhere else. *)
Theorem eye_identity (k : Z) :
  0 <= k < Unsigned.UINT_MAX ->
  exists w, Matrix.eye k = Ok w /\
    Matrix.wf w /\ Matrix.getRows w = k /\ Matrix.getCols w = k /\
    (forall i, 1 <= i <= k -> Matrix.get w i i = Ok 1%float) /\
    (forall i j, 1 <= i <= k -> 1 <= j <= k -> i <> j ->
       Matrix.get w i j = Ok 0%float).
Proof.
  intros Hk. destruct (eye_spec k Hk) as (w & Hw & Hwf & Hm & Hn & Hget).
  exists w. split_and!; try done.
  - intros i Hi. rewrite Hget by done. by rewrite decide_True.
  - intros i j Hi Hj Hne. rewrite Hget by done. by rewrite decide_False.
Qed.

Lemma eye_identity_witness :
  exists w, Matrix.eye 3 = Ok w /\
    Matrix.wf w /\ Matrix.getRows w = 3 /\ Matrix.getCols w = 3 /\
    (forall i, 1 <= i <= 3 -> Matrix.get w i i = Ok 1%float) /\
    (forall i j, 1 <= i <= 3 -> 1 <= j <= 3 -> i <> j ->
       Matrix.get w i j = Ok 0%float).
Proof.
  apply (eye_identity 3). rewrite UINT_MAX_eq. lia.
Defined.

(** X7: the identity matrix is its own transpose. *)
Theorem eye_transpose (k : Z) :
  0 <= k < Unsigned.UINT_MAX ->
  exists w, Matrix.eye k = Ok w /\ Matrix.transpose w = Ok w.
Proof.
  intros Hk. destruct (eye_spec k Hk) as (w & Hw & Hwf & Hm & Hn & Hget).
  destruct (transpose_spec w Hwf) as (u & Hu & Hwfu & Hmu & Hnu & Hgetu).
  exists w. split; [done|]. rewrite Hu. f_equal.
  apply matrix_ext_get; try done; try congruence.
  intros i j Hi Hj. rewrite Hmu, Hn in Hi. rewrite Hnu, Hm in Hj.
  rewrite (Hgetu j i) by lia. rewrite !Hget by lia.
  destruct (decide (j = i)) as [->|Hne].
  - by rewrite decide_True.
  - by rewrite decide_False by congruence.
Qed.

Lemma eye_transpose_witness :
  exists w, Matrix.eye 4 = Ok w /\ Matrix.transpose w = Ok w.
Proof.
  apply (eye_transpose 4). rewrite UINT_MAX_eq. lia.
Defined.

(** ** Scalar multiplication *)

(** X8: [a * s] and [s * a] are the same matrix: it has the dimensions of
    [a] and its element [(i, j)] is [s * a[i,j]]. *)
Theorem scale_elementwise (a : Matrix.t) (s : float) :
  Matrix.wf a ->
  exists w, Matrix.scale a s = Ok w /\ Matrix.scale_left s a = Ok w /\
    Matrix.wf w /\ Matrix.m w = Matrix.m a /\ Matrix.n w = Matrix.n a /\
    forall i j, 1 <= i <= Matrix.m a -> 1 <= j <= Matrix.n a ->
      exists x, Matrix.get a i j = Ok x /\ Matrix.get w i j = Ok (s * x)%float.
Proof.
  intros Ha. pose proof Ha as (Hm & Hn & _).
  destruct (pointwise_spec (Matrix.m a) (Matrix.n a)
              (fun i j => do x <- Matrix.get a i j; Ok (s * x)%float))
    as (w & Hw & Hwf & Hmw & Hnw & Hget); try done.
  - intros i j Hi Hj.
    destruct (wf_get_in_range a i j Ha Hi Hj) as [x ->]. simpl. eauto.
  - exists w. split_and!; try done.
    intros i j Hi Hj. rewrite Hget by done.
    destruct (wf_get_in_range a i j Ha Hi Hj) as [x ->]. simpl. eauto.
Qed.

Lemma scale_elementwise_witness :
  Matrix.wf sample_2x3 /\
  exists w, Matrix.scale sample_2x3 2 = Ok w /\ Matrix.scale_left 2 sample_2x3 = Ok w /\
    Matrix.wf w /\ Matrix.m w = 2 /\ Matrix.n w = 3 /\
    forall i j, 1 <= i <= 2 -> 1 <= j <= 3 ->
      exists x, Matrix.get sample_2x3 i j = Ok x /\
                Matrix.get w i j = Ok (2 * x)%float.
Proof.
  assert (Matrix.wf sample_2x3) as Hwf by solve_wf.
  split; [exact Hwf|]. exact (scale_elementwise sample_2x3 2%float Hwf).
Defined.

(** ** What the element-wise loops keep and when they throw *)

Lemma set_shape a i j x a' : Matrix.set a i j x = Ok a' -> shape a' = shape a.
Proof.
  unfold Matrix.set.
  intros (rw & Hrow & (z & Hz & [= <-])%bind_Ok)%bind_Ok.
  apply at_Ok in Hrow as [_ Hrow].
  unfold shape. simpl. f_equal.
  rewrite list_fmap_insert, length_insert.
  apply list_insert_id. by rewrite list_lookup_fmap, Hrow.
Qed.

Lemma for_each_invariant {I S} (P : S -> Prop) (l : list I)
    (body : I -> S -> result S) :
  (forall i s s', P s -> body i s = Ok s' -> P s') ->
  forall s s', P s -> for_each l body s = Ok s' -> P s'.
Proof.
  intros Hbody. induction l as [|i l IH]; intros s s' HP; simpl.
  - by intros [= <-].
  - intros (t & Ht & Hrest)%bind_Ok. eapply IH; [|exact Hrest]. by eapply Hbody.
Qed.

Lemma pointwise_shape rows cols (elem : Z -> Z -> result float) w :
  Matrix.pointwise rows cols elem = Ok w ->
  shape w = shape (Matrix.fill rows cols 0).
Proof.
  unfold Matrix.pointwise, for_loop.
  destruct (bool_decide (rows < Unsigned.UINT_MAX)); [|done].
  apply (for_each_invariant (fun a => shape a = shape (Matrix.fill rows cols 0)));
    [|done].
  intros i s s' Hs.
  destruct (bool_decide (cols < Unsigned.UINT_MAX)); [|done].
  apply (for_each_invariant (fun a => shape a = shape (Matrix.fill rows cols 0)));
    [|done].
  intros j t t' Ht (x & _ & Hset)%bind_Ok.
  apply set_shape in Hset. congruence.
Qed.

Lemma pointwise_result_wf rows cols (elem : Z -> Z -> result float) w :
  0 <= rows < Unsigned.UINT_MAX -> 0 <= cols < Unsigned.UINT_MAX ->
  Matrix.pointwise rows cols elem = Ok w ->
  Matrix.wf w /\ Matrix.m w = rows /\ Matrix.n w = cols.
Proof.
  intros Hrows Hcols Hshape%pointwise_shape.
  destruct (shape_dims _ _ Hshape) as [Hmw Hnw]. simpl in Hmw, Hnw.
  split_and!; try done.
  eapply wf_shape; [symmetry; exact Hshape|]. by apply wf_fill.
Qed.

(** X9: whatever the right operand is, a sum or a difference that is
    returned is a well-formed matrix with the dimensions of the left
    operand. *)
Theorem add_sub_result_wf (a o w : Matrix.t) :
  Matrix.wf a ->
  Matrix.add a o = Ok w \/ Matrix.sub a o = Ok w ->
  Matrix.wf w /\ Matrix.m w = Matrix.m a /\ Matrix.n w = Matrix.n a.
Proof.
  intros Ha Hop. pose proof Ha as (Hm & Hn & _).
  destruct Hop as [Hop|Hop]; by apply pointwise_result_wf in Hop.
Qed.

Lemma add_sub_result_wf_witness :
  Matrix.wf sample_1x1 /\
  Matrix.add sample_1x1 sample_2x2 = Ok (Matrix.fill 1 1 3) /\
  Matrix.wf (Matrix.fill 1 1 3) /\
  Matrix.m (Matrix.fill 1 1 3) = Matrix.m sample_1x1 /\
  Matrix.n (Matrix.fill 1 1 3) = Matrix.n sample_1x1.
Proof.
  assert (Matrix.wf sample_1x1) as Hwf by solve_wf.
  assert (Matrix.add sample_1x1 sample_2x2 = Ok (Matrix.fill 1 1 3)) as Hadd
    by reflexivity.
  split; [exact Hwf|]. split; [exact Hadd|].
  exact (add_sub_result_wf sample_1x1 sample_2x2 _ Hwf (or_introl Hadd)).
Defined.

Lemma pointwise_pairs rows cols (elem : Z -> Z -> result float) :
  rows < Unsigned.UINT_MAX -> cols < Unsigned.UINT_MAX ->
  Matrix.pointwise rows cols elem
  = for_each (i ← seqZ 1 rows; pair i <$> seqZ 1 cols)
      (fun p a => do x <- elem p.1 p.2; Matrix.set a p.1 p.2 x)
      (Matrix.fill rows cols 0).
Proof.
  intros Hrows Hcols. unfold Matrix.pointwise, for_loop.
  rewrite (bool_decide_eq_true_2 (rows < Unsigned.UINT_MAX)) by done.
  rewrite (bool_decide_eq_true_2 (cols < Unsigned.UINT_MAX)) by done.
  replace (rows - 1 + 1) with rows by lia.
  replace (cols - 1 + 1) with cols by lia.
  apply (for_each_nested (seqZ 1 rows) (seqZ 1 cols)
           (fun i j a => do x <- elem i j; Matrix.set a i j x)).
Qed.

(** A loop of writes stops with the exception of the first element that
    cannot be computed. *)
Lemma for_each_set_throw (ps : list (Z * Z)) (elem : Z * Z -> result float)
    (acc : Matrix.t) (e : fault) :
  Matrix.wf acc ->
  (forall p, p ∈ ps -> 1 <= p.1 <= Matrix.m acc /\ 1 <= p.2 <= Matrix.n acc) ->
  (forall p, p ∈ ps -> (exists x, elem p = Ok x) \/ elem p = Throw e) ->
  (exists p, p ∈ ps /\ elem p = Throw e) ->
  for_each ps (fun p a => do x <- elem p; Matrix.set a p.1 p.2 x) acc = Throw e.
Proof.
  revert acc. induction ps as [|p ps IH]; intros acc Hwf Hpos Helem (q & Hq & Hbad).
  - inv Hq.
  - simpl. destruct (Helem p) as [[x Hx]|Hx]; [left| |by rewrite Hx].
    rewrite Hx. simpl.
    destruct (Hpos p) as [Hi Hj]; [left|].
    destruct (wf_set_in_range acc _ _ x Hwf Hi Hj) as (acc1 & -> & Hshape & _).
    destruct (shape_dims _ _ Hshape) as [Hm1 Hn1]. simpl.
    apply IH.
    + by eapply wf_shape.
    + intros r Hr. rewrite Hm1, Hn1. apply Hpos. by right.
    + intros r Hr. apply Helem. by right.
    + exists q. split; [|done].
      apply elem_of_cons in Hq as [->|Hq]; [congruence|done].
Qed.

Lemma zip_throw (op : float -> float -> float) a o :
  Matrix.wf a -> Matrix.wf o ->
  1 <= Matrix.m a -> 1 <= Matrix.n a ->
  Matrix.m o < Matrix.m a \/ Matrix.n o < Matrix.n a ->
  Matrix.pointwise (Matrix.m a) (Matrix.n a) (fun i j =>
    do x <- Matrix.get a i j; do y <- Matrix.get o i j; Ok (op x y))
  = Throw out_of_range.
Proof.
  intros Ha Ho Hm1 Hn1 Hsmall.
  pose proof Ha as (Hm & Hn & _). pose proof Ho as (Hmo & Hno & _).
  rewrite pointwise_pairs by lia.
  apply (for_each_set_throw _ (fun p =>
           do x <- Matrix.get a p.1 p.2; do y <- Matrix.get o p.1 p.2;
           Ok (op x y))).
  - by apply wf_fill.
  - intros p Hp. by apply elem_of_index_pairs in Hp.
  - intros p Hp. apply elem_of_index_pairs in Hp as [Hi Hj].
    destruct (wf_get_in_range a _ _ Ha Hi Hj) as [x ->]. simpl.
    destruct (Matrix.get o p.1 p.2) as [y|e] eqn:Hy; simpl; [by eauto|].
    right. by rewrite (get_Throw _ _ _ _ Hy).
  - exists (Matrix.m a, Matrix.n a). split.
    + apply elem_of_index_pairs. simpl. lia.
    + simpl.
      destruct (wf_get_in_range a (Matrix.m a) (Matrix.n a) Ha) as [x ->];
        [lia..|]. simpl.
      rewrite (wf_get_out_of_range o); [done|done|..];
        rewrite ?modulus_eq; rewrite UINT_MAX_eq in *; lia.
Qed.

Lemma zip_defined (op : float -> float -> float) a o :
  Matrix.wf a -> Matrix.wf o ->
  Matrix.m a = 0 \/ Matrix.n a = 0 \/
  (Matrix.m a <= Matrix.m o /\ Matrix.n a <= Matrix.n o) ->
  exists w, Matrix.pointwise (Matrix.m a) (Matrix.n a) (fun i j =>
    do x <- Matrix.get a i j; do y <- Matrix.get o i j; Ok (op x y)) = Ok w.
Proof.
  intros Ha Ho Hcase. pose proof Ha as (Hm & Hn & _).
  destruct (pointwise_spec (Matrix.m a) (Matrix.n a) (fun i j =>
              do x <- Matrix.get a i j; do y <- Matrix.get o i j; Ok (op x y)))
    as (w & Hw & _); try done; [|by eauto].
  intros i j Hi Hj.
  destruct (wf_get_in_range a i j Ha Hi Hj) as [x ->].
  destruct (wf_get_in_range o i j Ho) as [y ->]; [lia..|]. simpl. eauto.
Qed.

(** X10: for well-formed operands, [a + o] and [a - o] are returned when
    [a] has no element or [o] has at least the rows and the columns of [a];
    otherwise both throw [out_of_range]. *)
Theorem add_sub_success (a o : Matrix.t) :
  Matrix.wf a -> Matrix.wf o ->
  (Matrix.m a = 0 \/ Matrix.n a = 0 \/
   (Matrix.m a <= Matrix.m o /\ Matrix.n a <= Matrix.n o) ->
     (exists w, Matrix.add a o = Ok w) /\ (exists w, Matrix.sub a o = Ok w)) /\
  (1 <= Matrix.m a -> 1 <= Matrix.n a ->
   Matrix.m o < Matrix.m a \/ Matrix.n o < Matrix.n a ->
     Matrix.add a o = Throw out_of_range /\ Matrix.sub a o = Throw out_of_range).
Proof.
  intros Ha Ho. split.
  - intros Hcase. split; by apply zip_defined.
  - intros Hm1 Hn1 Hsmall. split; by apply zip_throw.
Qed.

Lemma add_sub_success_witness :
  Matrix.wf sample_2x2 /\ Matrix.wf sample_1x1 /\
  Matrix.add sample_2x2 sample_1x1 = Throw out_of_range /\
  Matrix.sub sample_2x2 sample_1x1 = Throw out_of_range /\
  (exists w, Matrix.add (Matrix.fill 0 2 0) sample_1x1 = Ok w).
Proof.
  assert (Matrix.wf sample_2x2) as H22 by solve_wf.
  assert (Matrix.wf sample_1x1) as H11 by solve_wf.
  assert (Matrix.wf (Matrix.fill 0 2 0)) as H02 by solve_wf.
  split; [exact H22|]. split; [exact H11|]. split_and!.
  - apply (add_sub_success sample_2x2 sample_1x1 H22 H11); simpl; lia.
  - apply (add_sub_success sample_2x2 sample_1x1 H22 H11); simpl; lia.
  - apply (add_sub_success (Matrix.fill 0 2 0) sample_1x1 H02 H11). by left.
Defined.

(** ** Transpose, element by element *)

(** X11: [transpose()] and [t()] never throw on a well-formed matrix; the
    result is the well-formed [n x m] matrix with [w[j,i] = a[i,j]], and it
    is a vector exactly when [a] is. *)
Theorem transpose_entries (a : Matrix.t) :
  Matrix.wf a ->
  exists w, Matrix.transpose a = Ok w /\ Matrix.t_ a = Ok w /\
    Matrix.wf w /\
    Matrix.getRows w = Matrix.getCols a /\ Matrix.getCols w = Matrix.getRows a /\
    (forall i j, 1 <= i <= Matrix.m a -> 1 <= j <= Matrix.n a ->
       Matrix.get w j i = Matrix.get a i j) /\
    Matrix.isVector w = Matrix.isVector a.
Proof.
  intros Ha. destruct (transpose_spec a Ha) as (w & Hw & Hwf & Hm & Hn & Hget).
  exists w. split_and!; try done.
  unfold Matrix.isVector. rewrite Hm, Hn. apply orb_comm.
Qed.

Lemma transpose_entries_witness :
  Matrix.wf sample_2x3 /\
  exists w, Matrix.transpose sample_2x3 = Ok w /\ Matrix.t_ sample_2x3 = Ok w /\
    Matrix.wf w /\
    Matrix.getRows w = 3 /\ Matrix.getCols w = 2 /\
    (forall i j, 1 <= i <= 2 -> 1 <= j <= 3 ->
       Matrix.get w j i = Matrix.get sample_2x3 i j) /\
    Matrix.isVector w = false.
Proof.
  assert (Matrix.wf sample_2x3) as Hwf by solve_wf.
  split; [exact Hwf|]. exact (transpose_entries sample_2x3 Hwf).
Defined.

(** ** The matrix product *)

Lemma for_each_ext {I S} (l : list I) (body1 body2 : I -> S -> result S) s :
  (forall i t, body1 i t = body2 i t) ->
  for_each l body1 s = for_each l body2 s.
Proof.
  intros Hbody. revert s. induction l as [|i l IH]; intros s; simpl; [done|].
  rewrite Hbody. destruct (body2 i s); simpl; auto.
Qed.

Lemma wf_row a r :
  Matrix.wf a -> (r < Z.to_nat (Matrix.m a))%nat ->
  length (row a r) = Z.to_nat (Matrix.n a) /\
  forall c, row a r !! c = entry a r c.
Proof.
  intros (_ & _ & Hlen & Hrows) Hr. unfold row, entry.
  destruct (lookup_lt_is_Some_2 (Matrix.v a) r) as [rw Hrw]; [lia|].
  rewrite Hrw. simpl. split; [|done].
  rewrite Forall_lookup in Hrows. by eapply Hrows.
Qed.

(** The inner loop of the product accumulates the dot product of a row of
    the left operand and a column of the right operand. *)
Lemma dot_loop a o i j :
  Matrix.wf a -> Matrix.wf o -> Matrix.n a = Matrix.m o ->
  1 <= i <= Matrix.m a -> 1 <= j <= Matrix.n o ->
  for_loop 1 (Matrix.getCols a) (fun k sum =>
      do x <- Matrix.get a i k; do y <- Matrix.get o k j;
      Ok (sum + x * y)%float) 0%float
  = Ok (dot (row a (Z.to_nat (i - 1))) (column o (Z.to_nat (j - 1)))).
Proof.
  intros Ha Ho Hinner Hi Hj.
  pose proof Ha as (Hm & Hn & _). pose proof Ho as (Hmo & Hno & _).
  rewrite UINT_MAX_eq in *.
  destruct (wf_row a (Z.to_nat (i - 1)) Ha) as [Hrlen Hrow]; [lia|].
  destruct (wf_column o (Z.to_nat (j - 1)) Ho) as [Hclen Hcol]; [lia|].
  set (u := row a (Z.to_nat (i - 1))) in *.
  set (w := column o (Z.to_nat (j - 1))) in *.
  assert (length (zip u w) = Z.to_nat (Matrix.n a)) as Hzlen.
  { rewrite length_zip_with. lia. }
  unfold Matrix.getCols. rewrite for_loop_1 by (rewrite UINT_MAX_eq; lia).
  replace (Matrix.n a) with (Z.of_nat (length (zip u w))) at 1 by lia.
  unfold dot.
  rewrite <- (for_each_fold (fun sum p => sum + p.1 * p.2)%float
                (fun k => do x <- Matrix.get a i k; do y <- Matrix.get o k j;
                          Ok (x, y)) (zip u w)).
  - apply for_each_ext. intros k t.
    destruct (Matrix.get a i k); simpl; [|done].
    by destruct (Matrix.get o k j).
  - intros k [x y] Hk.
    apply lookup_zip_with_Some in Hk as (x' & y' & [= <- <-] & Hx & Hy).
    apply lookup_lt_Some in Hx as Hlt.
    rewrite Hrow in Hx. rewrite Hcol in Hy.
    assert (Matrix.get a i (1 + Z.of_nat k) = Ok x) as ->.
    { apply get_Ok_entry; try (rewrite modulus_eq; lia).
      by replace (Z.to_nat (1 + Z.of_nat k - 1)) with k by lia. }
    assert (Matrix.get o (1 + Z.of_nat k) j = Ok y) as ->.
    { apply get_Ok_entry; try (rewrite modulus_eq; lia).
      by replace (Z.to_nat (1 + Z.of_nat k - 1)) with k by lia. }
    done.
Qed.

Lemma mul_spec a o :
  Matrix.wf a -> Matrix.wf o -> Matrix.n a = Matrix.m o ->
  exists w, Matrix.mul a o = Ok w /\
    Matrix.wf w /\ Matrix.m w = Matrix.m a /\ Matrix.n w = Matrix.n o /\
    forall i j, 1 <= i <= Matrix.m a -> 1 <= j <= Matrix.n o ->
      Matrix.get w i j
      = Ok (dot (row a (Z.to_nat (i - 1))) (column o (Z.to_nat (j - 1)))).
Proof.
  intros Ha Ho Hinner.
  pose proof Ha as (Hm & Hn & _). pose proof Ho as (Hmo & Hno & _).
  destruct (pointwise_spec (Matrix.m a) (Matrix.n o) (fun i j =>
              for_loop 1 (Matrix.getCols a) (fun k sum =>
                do x <- Matrix.get a i k; do y <- Matrix.get o k j;
                Ok (sum + x * y)%float) 0%float))
    as (w & Hw & Hwf & Hmw & Hnw & Hget); try done.
  - intros i j Hi Hj. rewrite dot_loop by done. eauto.
  - exists w. split_and!; try done.
    + unfold Matrix.mul, Matrix.getCols, Matrix.getRows.
      rewrite bool_decide_eq_false_2 by tauto. exact Hw.
    + intros i j Hi Hj. rewrite Hget by done. by apply dot_loop.
Qed.

(** X12: [a * o] throws "Invalid matrix multiplication" exactly when the
    columns of [a] and the rows of [o] differ in number; otherwise it is the
    well-formed matrix with the rows of [a] and the columns of [o] whose
    element [(i, j)] is the dot product of row [i] of [a] and column [j] of
    [o]. *)
Theorem mul_rows_by_columns (a o : Matrix.t) :
  Matrix.wf a -> Matrix.wf o ->
  (Matrix.getCols a <> Matrix.getRows o ->
     Matrix.mul a o = Throw (invalid_argument "Invalid matrix multiplication")) /\
  (Matrix.getCols a = Matrix.getRows o ->
     exists w, Matrix.mul a o = Ok w /\
       Matrix.wf w /\
       Matrix.getRows w = Matrix.getRows a /\ Matrix.getCols w = Matrix.getCols o /\
       forall i j, 1 <= i <= Matrix.m a -> 1 <= j <= Matrix.n o ->
         Matrix.get w i j
         = Ok (dot (row a (Z.to_nat (i - 1))) (column o (Z.to_nat (j - 1))))).
Proof.
  intros Ha Ho. split.
  - intros Hne. unfold Matrix.mul. by rewrite bool_decide_eq_true_2.
  - intros Heq. by apply mul_spec.
Qed.

Lemma mul_rows_by_columns_witness :
  Matrix.wf sample_2x3 /\ Matrix.wf sample_2x2 /\
  Matrix.mul sample_2x3 sample_2x2
    = Throw (invalid_argument "Invalid matrix multiplication") /\
  exists w, Matrix.mul sample_2x2 sample_2x3 = Ok w /\
    Matrix.wf w /\ Matrix.getRows w = 2 /\ Matrix.getCols w = 3 /\
    forall i j, 1 <= i <= 2 -> 1 <= j <= 3 ->
      Matrix.get w i j
      = Ok (dot (row sample_2x2 (Z.to_nat (i - 1)))
              (column sample_2x3 (Z.to_nat (j - 1)))).
Proof.
  assert (Matrix.wf sample_2x3) as H23 by solve_wf.
  assert (Matrix.wf sample_2x2) as H22 by solve_wf.
  split; [exact H23|]. split; [exact H22|]. split.
  - apply (mul_rows_by_columns sample_2x3 sample_2x2 H23 H22). discriminate.
  - apply (mul_rows_by_columns sample_2x2 sample_2x3 H22 H23). reflexivity.
Defined.

(** ** The slope of the line search *)

Lemma get_eq_entry a b i j i' j' :
  1 <= i <= Unsigned.modulus -> 1 <= j <= Unsigned.modulus ->
  1 <= i' <= Unsigned.modulus -> 1 <= j' <= Unsigned.modulus ->
  Matrix.get a i j = Matrix.get b i' j' ->
  entry a (Z.to_nat (i - 1)) (Z.to_nat (j - 1))
  = entry b (Z.to_nat (i' - 1)) (Z.to_nat (j' - 1)).
Proof.
  intros Hi Hj Hi' Hj'. rewrite !get_entry by done.
  destruct (entry a _ _), (entry b _ _); congruence.
Qed.

Lemma transpose_row a w :
  Matrix.wf a -> 1 <= Matrix.n a -> Matrix.transpose a = Ok w ->
  row w 0 = column a 0.
Proof.
  intros Ha Hn1 Hw.
  destruct (transpose_spec a Ha) as (w' & Hw' & Hwf & Hm & Hn & Hget).
  assert (w' = w) as -> by congruence.
  pose proof Ha as (Hma & Hna & _). rewrite UINT_MAX_eq in *.
  destruct (wf_row w 0 Hwf) as [Hrlen Hrow]; [lia|].
  destruct (wf_column a 0 Ha) as [Hclen Hcol]; [lia|].
  apply (list_eq_same_length _ _ (Z.to_nat (Matrix.m a))); [done|lia|].
  intros c x y Hc Hx Hy. rewrite Hrow in Hx. rewrite Hcol in Hy.
  specialize (Hget (Z.of_nat c + 1) 1 ltac:(lia) ltac:(lia)).
  apply get_eq_entry in Hget; try (rewrite modulus_eq; lia).
  replace (Z.to_nat (Z.of_nat c + 1 - 1)) with c in Hget by lia.
  change (Z.to_nat (1 - 1)) with 0%nat in Hget. congruence.
Qed.

(** X13: for a gradient [g] and a direction [d] that are well-formed column
    vectors with the same number of rows, [(g.t() * d).x()], the slope that
    the line search compares against, is the dot product of the two
    columns. *)
Theorem slope_is_dot_product (g d : Matrix.t) :
  Matrix.wf g -> Matrix.wf d ->
  Matrix.n g = 1 -> Matrix.n d = 1 -> Matrix.m g = Matrix.m d ->
  (do gt <- Matrix.t_ g; do gd <- Matrix.mul gt d; Matrix.x gd)
  = Ok (dot (column g 0) (column d 0)).
Proof.
  intros Hg Hd Hng Hnd Hrows.
  destruct (transpose_spec g Hg) as (gt & Hgt & Hwf & Hm & Hn & _).
  unfold Matrix.t_. rewrite Hgt. simpl.
  destruct (mul_spec gt d Hwf Hd) as (gd & Hgd & Hwfgd & Hmgd & Hngd & Hget);
    [congruence|].
  rewrite Hgd. simpl. unfold Matrix.x.
  rewrite !bool_decide_eq_true_2 by congruence. simpl.
  rewrite Hget by lia. change (Z.to_nat (1 - 1)) with 0%nat.
  by rewrite (transpose_row g gt Hg) by (done || lia).
Qed.

Lemma slope_is_dot_product_witness :
  Matrix.wf (Matrix.of_vector [2; 0]%float) /\
  Matrix.wf (Matrix.of_vector [-2; 0]%float) /\
  (do gt <- Matrix.t_ (Matrix.of_vector [2; 0]%float);
   do gd <- Matrix.mul gt (Matrix.of_vector [-2; 0]%float); Matrix.x gd)
  = Ok (dot (column (Matrix.of_vector [2; 0]%float) 0)
            (column (Matrix.of_vector [-2; 0]%float) 0)) /\
  dot (column (Matrix.of_vector [2; 0]%float) 0)
      (column (Matrix.of_vector [-2; 0]%float) 0) = (-4)%float.
Proof.
  assert (Matrix.wf (Matrix.of_vector [2; 0]%float)) as Hg by solve_wf.
  assert (Matrix.wf (Matrix.of_vector [-2; 0]%float)) as Hd by solve_wf.
  split; [exact Hg|]. split; [exact Hd|]. split; [|reflexivity].
  apply (slope_is_dot_product _ _ Hg Hd); reflexivity.
Defined.

(** ** Coordinates of small vectors *)

(** X14: [x1()] and [x2()] return the two coordinates of a well-formed 2x1
    matrix, which is the column vector built from them; on any other shape
    both throw "Not a 2x1 column vector". *)
Theorem x1_x2_coordinates (a : Matrix.t) :
  Matrix.wf a ->
  (Matrix.m a = 2 /\ Matrix.n a = 1 ->
     exists p q, Matrix.x1 a = Ok p /\ Matrix.x2 a = Ok q /\
                 a = Matrix.of_vector [p; q]) /\
  (~ (Matrix.m a = 2 /\ Matrix.n a = 1) ->
     Matrix.x1 a = Throw (invalid_argument "Not a 2x1 column vector") /\
     Matrix.x2 a = Throw (invalid_argument "Not a 2x1 column vector")).
Proof.
  intros Ha. split.
  - intros [Hm Hn].
    destruct a as [ma na va]. simpl in Hm, Hn. subst ma na.
    destruct Ha as (_ & _ & Hlen & Hrows). simpl in Hlen, Hrows.
    destruct va as [|r1 [|r2 [|r3 va]]]; try done.
    apply Forall_cons in Hrows as [H1 Hrows].
    apply Forall_cons in Hrows as [H2 _].
    destruct r1 as [|p [|? r1]]; try done.
    destruct r2 as [|q [|? r2]]; try done.
    exists p, q. done.
  - intros Hshape. unfold Matrix.x1, Matrix.x2.
    assert (bool_decide (Matrix.m a = 2) && bool_decide (Matrix.n a = 1) = false)
      as ->; [|done].
    apply andb_false_iff. rewrite !bool_decide_eq_false.
    destruct (decide (Matrix.m a = 2)); [right|left]; tauto.
Qed.

Lemma x1_x2_coordinates_witness :
  Matrix.wf sample_x0 /\
  (exists p q, Matrix.x1 sample_x0 = Ok p /\ Matrix.x2 sample_x0 = Ok q /\
               sample_x0 = Matrix.of_vector [p; q]) /\
  Matrix.wf sample_2x3 /\
  Matrix.x1 sample_2x3 = Throw (invalid_argument "Not a 2x1 column vector").
Proof.
  assert (Matrix.wf sample_x0) as H0 by solve_wf.
  assert (Matrix.wf sample_2x3) as H23 by solve_wf.
  split; [exact H0|]. split; [|split; [exact H23|]].
  - apply (x1_x2_coordinates sample_x0 H0). by split.
  - apply (x1_x2_coordinates sample_2x3 H23). simpl. lia.
Defined.

(** X15: [x()] returns the only element of a well-formed 1x1 matrix, which
    is the matrix filled with it; on any other shape it throws
    "Not a 1x1 Matrix". *)
Theorem x_only_element (a : Matrix.t) :
  Matrix.wf a ->
  (Matrix.m a = 1 /\ Matrix.n a = 1 ->
     exists p, Matrix.x a = Ok p /\ a = Matrix.fill 1 1 p) /\
  (~ (Matrix.m a = 1 /\ Matrix.n a = 1) ->
     Matrix.x a = Throw (invalid_argument "Not a 1x1 Matrix")).
Proof.
  intros Ha. split.
  - intros [Hm Hn].
    destruct a as [ma na va]. simpl in Hm, Hn. subst ma na.
    destruct Ha as (_ & _ & Hlen & Hrows). simpl in Hlen, Hrows.
    destruct va as [|r1 [|r2 va]]; try done.
    apply Forall_cons in Hrows as [H1 _].
    destruct r1 as [|p [|? r1]]; try done.
    exists p. done.
  - intros Hshape. unfold Matrix.x.
    assert (bool_decide (Matrix.m a = 1) && bool_decide (Matrix.n a = 1) = false)
      as ->; [|done].
    apply andb_false_iff. rewrite !bool_decide_eq_false.
    destruct (decide (Matrix.m a = 1)); [right|left]; tauto.
Qed.

Lemma x_only_element_witness :
  Matrix.wf sample_1x1 /\
  (exists p, Matrix.x sample_1x1 = Ok p /\ sample_1x1 = Matrix.fill 1 1 p) /\
  Matrix.wf sample_2x2 /\
  Matrix.x sample_2x2 = Throw (invalid_argument "Not a 1x1 Matrix").
Proof.
  assert (Matrix.wf sample_1x1) as H11 by solve_wf.
  assert (Matrix.wf sample_2x2) as H22 by solve_wf.
  split; [exact H11|]. split; [|split; [exact H22|]].
  - apply (x_only_element sample_1x1 H11). by split.
  - apply (x_only_element sample_2x2 H22). simpl. lia.
Defined.

(** ** The norm of a matrix without elements *)

(** X16: when a dimension is zero [length()] is 0, the loop of [mod()] reads
    no element and the norm is 0.0: no linear access, hence no division by
    the row count, takes place. *)
Theorem mod_empty (a : Matrix.t) :
  Matrix.m a = 0 \/ Matrix.n a = 0 ->
  Matrix.length a = 0 /\ Matrix.mod_ a = Ok 0%float.
Proof.
  intros Hzero.
  assert (Matrix.length a = 0) as Hlen.
  { unfold Matrix.length, Unsigned.mul. by destruct Hzero as [-> | ->];
      rewrite ?Z.mul_0_l, ?Z.mul_0_r. }
  split; [done|]. unfold Matrix.mod_. by rewrite Hlen.
Qed.

Lemma mod_empty_witness :
  (Matrix.m Matrix.empty = 0 \/ Matrix.n Matrix.empty = 0) /\
  Matrix.length Matrix.empty = 0 /\ Matrix.mod_ Matrix.empty = Ok 0%float /\
  Matrix.mod_ (Matrix.fill 3 0 1) = Ok 0%float.
Proof.
  split; [by left|]. split_and!.
  - apply (mod_empty Matrix.empty). by left.
  - apply (mod_empty Matrix.empty). by left.
  - apply (mod_empty (Matrix.fill 3 0 1)). by right.
Defined.

(** * Further properties of the line search and the driver *)

Section Search_facts.

Variable pow : float -> float -> float.
Variable f : Matrix.t -> float.
Variable gradf : Matrix.t -> Matrix.t.

Lemma armijo_loop_trace s beta sigma x d fuel iter k :
  0 <= iter < Unsigned.modulus ->
  (forall j, 0 <= j < iter ->
     armijo_test pow f gradf s beta sigma x d j = Ok false) ->
  armijo_loop pow f gradf fuel s beta sigma x d iter = Some (Ok k) ->
  0 <= k < Unsigned.modulus /\
  armijo_test pow f gradf s beta sigma x d k = Ok true /\
  forall j, 0 <= j < k -> armijo_test pow f gradf s beta sigma x d j = Ok false.
Proof.
  revert iter. induction fuel as [|fuel IH]; intros iter Hiter Hbefore; [done|].
  simpl.
  destruct (armijo_test pow f gradf s beta sigma x d iter) as [[|]|e] eqn:Htest;
    try done.
  - intros [= <-]. done.
  - assert (forall j, 0 <= j < iter + 1 ->
              armijo_test pow f gradf s beta sigma x d j = Ok false) as Hbefore'.
    { intros j Hj. destruct (decide (j = iter)) as [->|Hne]; [done|].
      apply Hbefore. lia. }
    destruct (decide (iter + 1 < Unsigned.modulus)) as [Hlt|Hwrap].
    + rewrite succ_small by lia. apply IH; [lia | done].
    + rewrite armijo_loop_never; [done| |apply succ_bounds].
      intros j Hj. apply Hbefore'. lia.
Qed.

(** X17: a step returned by the line search is [t = s * pow(beta, k)] for
    an exponent [k] at which the sufficient-decrease comparison
    [-sigma * s * pow(beta, k) * slope <= f(x) - f(x + t * d)] evaluates to
    true, the comparison having been false at every smaller exponent. *)
Theorem armijo_call_sufficient_decrease s beta sigma x d fuel t :
  armijo_call pow f gradf fuel s beta sigma x d = Some (Ok t) ->
  exists k step trial gt gd slope,
    0 <= k < Unsigned.modulus /\
    t = (s * pow beta (Unsigned.to_double k))%float /\
    Matrix.scale_left t d = Ok step /\
    Matrix.add x step = Ok trial /\
    Matrix.t_ (gradf x) = Ok gt /\ Matrix.mul gt d = Ok gd /\
    Matrix.x gd = Ok slope /\
    PrimFloat.leb (- sigma * s * pow beta (Unsigned.to_double k) * slope)%float
      (f x - f trial)%float = true /\
    forall j, 0 <= j < k ->
      armijo_test pow f gradf s beta sigma x d j = Ok false.
Proof.
  unfold armijo_call.
  destruct (armijo_loop _ _ _ _ _ _ _ _ _ _) as [[k|e]|] eqn:Hloop; try done.
  intros [= <-].
  apply armijo_loop_trace in Hloop as (Hk & Htest & Hbefore);
    [|rewrite modulus_eq; lia|intros j Hj; lia].
  unfold armijo_test in Htest.
  apply bind_Ok in Htest as (step & Hstep & Htest).
  apply bind_Ok in Htest as (trial & Htrial & Htest).
  apply bind_Ok in Htest as (gt & Hgt & Htest).
  apply bind_Ok in Htest as (gd & Hgd & Htest).
  apply bind_Ok in Htest as (slope & Hslope & [= Hleb]).
  exists k, step, trial, gt, gd, slope. split_and!; try done; lia.
Qed.

Lemma scale_defined a c :
  Matrix.wf a ->
  exists w, Matrix.scale a c = Ok w /\
    Matrix.wf w /\ Matrix.m w = Matrix.m a /\ Matrix.n w = Matrix.n a.
Proof.
  intros Ha. pose proof Ha as (Hm & Hn & _).
  destruct (pointwise_spec (Matrix.m a) (Matrix.n a)
              (fun i j => do x <- Matrix.get a i j; Ok (c * x)%float))
    as (w & Hw & Hwf & Hmw & Hnw & _); try done; [|by eauto].
  intros i j Hi Hj.
  destruct (wf_get_in_range a i j Ha Hi Hj) as [x ->]. simpl. eauto.
Qed.

(** X18: when the direction has fewer rows or fewer columns than the
    (non-empty) point, computing the first trial point throws: the line
    search throws [out_of_range] without evaluating the objective. *)
Theorem armijo_call_shape_mismatch s beta sigma x d fuel :
  Matrix.wf x -> Matrix.wf d ->
  1 <= Matrix.m x -> 1 <= Matrix.n x ->
  Matrix.m d < Matrix.m x \/ Matrix.n d < Matrix.n x ->
  (0 < fuel)%nat ->
  armijo_call pow f gradf fuel s beta sigma x d = Some (Throw out_of_range).
Proof.
  intros Hx Hd Hm1 Hn1 Hsmall Hfuel.
  destruct fuel as [|fuel]; [lia|].
  unfold armijo_call. simpl. unfold armijo_test, Matrix.scale_left.
  destruct (scale_defined d (s * pow beta (Unsigned.to_double 0))%float Hd)
    as (step & -> & Hwf & Hms & Hns).
  simpl. unfold Matrix.add.
  rewrite (zip_throw PrimFloat.add x step) by (done || lia). done.
Qed.

End Search_facts.

Lemma armijo_call_sufficient_decrease_witness :
  exists k step trial gt gd slope,
    0 <= k < Unsigned.modulus /\
    0x1.5798ee2308c3dp-3%float
      = (c08 * sample_pow c08 (Unsigned.to_double k))%float /\
    Matrix.scale_left 0x1.5798ee2308c3dp-3 (Matrix.of_vector [-2; 0]%float)
      = Ok step /\
    Matrix.add sample_x0 step = Ok trial /\
    Matrix.t_ (sample_gradf sample_x0) = Ok gt /\
    Matrix.mul gt (Matrix.of_vector [-2; 0]%float) = Ok gd /\
    Matrix.x gd = Ok slope /\
    PrimFloat.leb (- c08 * c08 * sample_pow c08 (Unsigned.to_double k) * slope)%float
      (sample_f sample_x0 - sample_f trial)%float = true /\
    forall j, 0 <= j < k ->
      armijo_test sample_pow sample_f sample_gradf c08 c08 c08 sample_x0
        (Matrix.of_vector [-2; 0]%float) j = Ok false.
Proof.
  apply (armijo_call_sufficient_decrease sample_pow sample_f sample_gradf
           c08 c08 c08 sample_x0 (Matrix.of_vector [-2; 0]%float) 30).
  vm_compute. reflexivity.
Defined.

Lemma armijo_call_shape_mismatch_witness :
  Matrix.wf sample_x0 /\ Matrix.wf sample_1x1 /\
  armijo_call sample_pow sample_f sample_gradf 5 c08 c08 c08 sample_x0 sample_1x1
  = Some (Throw out_of_range).
Proof.
  assert (Matrix.wf sample_x0) as H0 by solve_wf.
  assert (Matrix.wf sample_1x1) as H1 by solve_wf.
  split; [exact H0|]. split; [exact H1|].
  apply (armijo_call_shape_mismatch sample_pow sample_f sample_gradf
           c08 c08 c08 sample_x0 sample_1x1 5 H0 H1); simpl; lia.
Defined.

Section Driver_facts.

Variable pow : float -> float -> float.
Variable f : Matrix.t -> float.
Variable gradf : Matrix.t -> Matrix.t.

Lemma print_point_2x1 p :
  Matrix.wf p -> Matrix.m p = 2 -> Matrix.n p = 1 -> print_point p = Ok tt.
Proof.
  intros Hp Hm Hn. unfold print_point, Matrix.x1, Matrix.x2.
  rewrite !bool_decide_eq_true_2 by done. simpl.
  destruct (wf_get_in_range p 1 1 Hp) as [a ->]; [lia..|].
  destruct (wf_get_in_range p 2 1 Hp) as [b ->]; [lia..|]. done.
Qed.

Lemma print_point_shape p u :
  print_point p = Ok u -> Matrix.m p = 2 /\ Matrix.n p = 1.
Proof.
  unfold print_point, Matrix.x1.
  destruct (bool_decide (Matrix.m p = 2)) eqn:Hm; [|done].
  destruct (bool_decide (Matrix.n p = 1)) eqn:Hn; [|done].
  intros _. by apply bool_decide_eq_true in Hm, Hn.
Qed.

(** X19: from a well-formed 2x1 start point at which the norm of the
    gradient is already below [epsilon], the driver returns the start point
    itself, without calling the line search. *)
Theorem gradient_method_already_converged fuel x0 epsilon norm :
  Matrix.wf x0 -> Matrix.m x0 = 2 -> Matrix.n x0 = 1 ->
  Matrix.mod_ (gradf x0) = Ok norm -> PrimFloat.ltb norm epsilon = true ->
  (0 < fuel)%nat ->
  gradient_method pow f gradf fuel x0 epsilon = Some (Ok x0).
Proof.
  intros Hwf Hm Hn Hnorm Hlt Hfuel. destruct fuel as [|fuel]; [lia|].
  unfold gradient_method. rewrite print_point_2x1 by done.
  simpl. rewrite Hnorm, Hlt. by rewrite print_point_2x1.
Qed.

Lemma next_iterate_wf xk dk ak xnext :
  Matrix.wf xk -> next_iterate xk dk ak = Ok xnext ->
  Matrix.wf xnext /\ Matrix.m xnext = Matrix.m xk /\ Matrix.n xnext = Matrix.n xk.
Proof.
  intros Hwf. unfold next_iterate. intros (step & _ & Hadd)%bind_Ok.
  pose proof Hwf as (Hm & Hn & _).
  by apply pointwise_result_wf in Hadd.
Qed.

Lemma gradient_loop_wf fuel epsilon xk x :
  Matrix.wf xk ->
  gradient_loop pow f gradf fuel epsilon xk = Some (Ok x) ->
  Matrix.wf x /\ Matrix.m x = Matrix.m xk /\ Matrix.n x = Matrix.n xk.
Proof.
  revert xk. induction fuel as [|fuel IH]; intros xk Hwf; [done|]. simpl.
  destruct (Matrix.mod_ (gradf xk)) as [norm|e]; [|done].
  destruct (PrimFloat.ltb norm epsilon).
  - by intros [= <-].
  - destruct (descent_direction gradf xk) as [dk|e]; [|done].
    destruct (armijo_call _ _ _ _ _ _ _ _ _) as [[ak|e]|]; try done.
    destruct (next_iterate xk dk ak) as [xnext|e] eqn:Hnext; [|done].
    destruct (next_iterate_wf _ _ _ _ Hwf Hnext) as (Hwf' & Hm & Hn).
    intros Hrun. destruct (IH xnext Hwf' Hrun) as (? & ? & ?).
    split_and!; [done|congruence..].
Qed.

(** X20: the iterates keep the shape of the start point: from a
    well-formed start point, a returned iterate is a well-formed 2x1 column
    vector, the one built from its two coordinates. *)
Theorem gradient_method_result_shape fuel x0 epsilon x :
  Matrix.wf x0 ->
  gradient_method pow f gradf fuel x0 epsilon = Some (Ok x) ->
  Matrix.wf x /\ Matrix.m x = 2 /\ Matrix.n x = 1 /\
  Matrix.m x0 = 2 /\ Matrix.n x0 = 1 /\
  exists p q, Matrix.x1 x = Ok p /\ Matrix.x2 x = Ok q /\
              x = Matrix.of_vector [p; q].
Proof.
  intros Hwf. unfold gradient_method.
  destruct (print_point x0) as [u|e] eqn:Hprint; [|done].
  apply print_point_shape in Hprint as [Hm0 Hn0].
  destruct (gradient_loop _ _ _ _ _ _) as [[xk|e]|] eqn:Hloop; try done.
  destruct (print_point xk) as [?|e]; [|done].
  intros [= <-].
  apply gradient_loop_wf in Hloop as (Hwfx & Hm & Hn); [|done].
  assert (Matrix.m xk = 2) as Hm2 by congruence.
  assert (Matrix.n xk = 1) as Hn1 by congruence.
  split_and!; try done.
  destruct xk as [ma na va]. simpl in Hm2, Hn1. subst ma na.
  destruct Hwfx as (_ & _ & Hlen & Hrows). simpl in Hlen, Hrows.
  destruct va as [|r1 [|r2 [|r3 va]]]; try done.
  apply Forall_cons in Hrows as [H1 Hrows].
  apply Forall_cons in Hrows as [H2 _].
  destruct r1 as [|p [|? r1]]; try done.
  destruct r2 as [|q [|? r2]]; try done.
  exists p, q. done.
Qed.

(** X21: when the line search started at the first iterate never returns,
    neither does the driver: there is no cap on either loop. *)
Theorem gradient_method_hangs x0 epsilon norm dk :
  Matrix.wf x0 -> Matrix.m x0 = 2 -> Matrix.n x0 = 1 ->
  Matrix.mod_ (gradf x0) = Ok norm -> PrimFloat.ltb norm epsilon = false ->
  Matrix.scale_left (-1)%float (gradf x0) = Ok dk ->
  (forall k, 0 <= k < Unsigned.modulus ->
     armijo_test pow f gradf c08 c08 c08 x0 dk k = Ok false) ->
  forall fuel, gradient_method pow f gradf fuel x0 epsilon = None.
Proof.
  intros Hwf Hm Hn Hnorm Hlt Hdk Hfalse fuel.
  unfold gradient_method. rewrite print_point_2x1 by done.
  destruct fuel as [|fuel]; [done|]. simpl.
  rewrite Hnorm, Hlt. unfold descent_direction. rewrite Hdk.
  unfold armijo_call.
  rewrite armijo_loop_never; [done|done|]. rewrite modulus_eq. lia.
Qed.

End Driver_facts.

Lemma gradient_method_already_converged_witness :
  Matrix.wf sample_limit /\
  Matrix.mod_ (sample_gradf sample_limit) = Ok 0x1.8f34059b7372ap-2%float /\
  PrimFloat.ltb 0x1.8f34059b7372ap-2 0.5 = true /\
  gradient_method sample_pow sample_f sample_gradf 1 sample_limit 0.5
  = Some (Ok sample_limit).
Proof.
  assert (Matrix.wf sample_limit) as Hwf by solve_wf.
  assert (Matrix.mod_ (sample_gradf sample_limit) = Ok 0x1.8f34059b7372ap-2%float)
    as Hnorm by (vm_compute; reflexivity).
  split; [exact Hwf|]. split; [exact Hnorm|]. split; [reflexivity|].
  apply (gradient_method_already_converged sample_pow sample_f sample_gradf
           1 sample_limit 0.5%float 0x1.8f34059b7372ap-2%float Hwf);
    try done. lia.
Defined.

Lemma gradient_method_result_shape_witness :
  Matrix.wf sample_x0 /\
  gradient_method sample_pow sample_f sample_gradf 30 sample_x0 0.5
    = Some (Ok sample_limit) /\
  Matrix.wf sample_limit /\ Matrix.m sample_limit = 2 /\ Matrix.n sample_limit = 1 /\
  Matrix.m sample_x0 = 2 /\ Matrix.n sample_x0 = 1 /\
  exists p q, Matrix.x1 sample_limit = Ok p /\ Matrix.x2 sample_limit = Ok q /\
              sample_limit = Matrix.of_vector [p; q].
Proof.
  assert (Matrix.wf sample_x0) as Hwf by solve_wf.
  assert (gradient_method sample_pow sample_f sample_gradf 30 sample_x0 0.5
          = Some (Ok sample_limit)) as Hrun by (vm_compute; reflexivity).
  split; [exact Hwf|]. split; [exact Hrun|].
  exact (gradient_method_result_shape sample_pow sample_f sample_gradf 30
           sample_x0 0.5%float sample_limit Hwf Hrun).
Defined.

(** A gradient callback with the wrong sign sends the search uphill: with
    the power constantly 1.0 the comparison fails at every exponent. *)
Lemma gradient_method_hangs_witness :
  Matrix.wf sample_x0 /\
  (forall k, 0 <= k < Unsigned.modulus ->
     armijo_test (fun _ _ => 1%float) sample_f
       (fun _ => Matrix.of_vector [-2; 0]%float) c08 c08 c08 sample_x0
       (Matrix.of_vector [2; -0]%float) k = Ok false) /\
  forall fuel,
    gradient_method (fun _ _ => 1%float) sample_f
      (fun _ => Matrix.of_vector [-2; 0]%float) fuel sample_x0 0.5 = None.
Proof.
  assert (Matrix.wf sample_x0) as Hwf by solve_wf.
  assert (forall k, 0 <= k < Unsigned.modulus ->
            armijo_test (fun _ _ => 1%float) sample_f
              (fun _ => Matrix.of_vector [-2; 0]%float) c08 c08 c08 sample_x0
              (Matrix.of_vector [2; -0]%float) k = Ok false) as Hfalse.
  { intros k _. vm_compute. reflexivity. }
  split; [exact Hwf|]. split; [exact Hfalse|].
  apply (gradient_method_hangs (fun _ _ => 1%float) sample_f
           (fun _ => Matrix.of_vector [-2; 0]%float) sample_x0 0.5%float
           2%float (Matrix.of_vector [2; -0]%float) Hwf);
    [reflexivity..|exact Hfalse].
Defined.

(** * How transpose composes with the element-wise operators *)

Lemma transpose_zip (op : float -> float -> float) a o s :
  Matrix.wf a -> Matrix.wf o ->
  Matrix.m a = Matrix.m o -> Matrix.n a = Matrix.n o ->
  Matrix.pointwise (Matrix.m a) (Matrix.n a) (fun i j =>
    do x <- Matrix.get a i j; do y <- Matrix.get o i j; Ok (op x y)) = Ok s ->
  exists ta to,
    Matrix.transpose a = Ok ta /\ Matrix.transpose o = Ok to /\
    Matrix.pointwise (Matrix.m ta) (Matrix.n ta) (fun i j =>
      do x <- Matrix.get ta i j; do y <- Matrix.get to i j; Ok (op x y))
    = Matrix.transpose s.
Proof.
  intros Ha Ho Hm Hn Hs.
  destruct (zip_spec op a o Ha Ho) as (s' & Hs' & Hwfs & Hms & Hns & Hgs); [lia..|].
  assert (s' = s) as -> by congruence.
  destruct (transpose_spec a Ha) as (ta & Hta & Hwfta & Hmta & Hnta & Hgta).
  destruct (transpose_spec o Ho) as (to & Hto & Hwfto & Hmto & Hnto & Hgto).
  destruct (transpose_spec s Hwfs) as (ts & Hts & Hwfts & Hmts & Hnts & Hgts).
  destruct (zip_spec op ta to Hwfta Hwfto) as (u & Hu & Hwfu & Hmu & Hnu & Hgu);
    [lia..|].
  exists ta, to. split_and!; try done.
  rewrite Hu, Hts. f_equal.
  apply matrix_ext_get; try done; try congruence.
  intros j i Hj Hi. rewrite Hmu, Hmta in Hj. rewrite Hnu, Hnta in Hi.
  destruct (Hgu j i) as (x & y & Hx & Hy & ->); [lia..|].
  rewrite Hgts by lia.
  destruct (Hgs i j) as (x' & y' & Hx' & Hy' & ->); [lia..|].
  rewrite Hgta in Hx by lia. rewrite Hgto in Hy by lia. congruence.
Qed.

(** X22: for well-formed operands of equal shape, the transpose of the sum
    is the sum of the transposes, and likewise for the difference. *)
Theorem transpose_add_sub (a o : Matrix.t) :
  Matrix.wf a -> Matrix.wf o ->
  Matrix.m a = Matrix.m o -> Matrix.n a = Matrix.n o ->
  exists ta to s d,
    Matrix.transpose a = Ok ta /\ Matrix.transpose o = Ok to /\
    Matrix.add a o = Ok s /\ Matrix.sub a o = Ok d /\
    Matrix.add ta to = Matrix.transpose s /\
    Matrix.sub ta to = Matrix.transpose d.
Proof.
  intros Ha Ho Hm Hn.
  destruct (zip_spec PrimFloat.add a o Ha Ho) as (s & Hs & _); [lia..|].
  destruct (zip_spec PrimFloat.sub a o Ha Ho) as (d & Hd & _); [lia..|].
  destruct (transpose_zip PrimFloat.add a o s Ha Ho Hm Hn Hs)
    as (ta & to & Hta & Hto & Hadd).
  destruct (transpose_zip PrimFloat.sub a o d Ha Ho Hm Hn Hd)
    as (ta' & to' & Hta' & Hto' & Hsub).
  assert (ta' = ta) as -> by congruence. assert (to' = to) as -> by congruence.
  exists ta, to, s, d. split_and!; done.
Qed.

Lemma transpose_add_sub_witness :
  Matrix.wf sample_2x3 /\
  exists ta to s d,
    Matrix.transpose sample_2x3 = Ok ta /\ Matrix.transpose sample_2x3 = Ok to /\
    Matrix.add sample_2x3 sample_2x3 = Ok s /\
    Matrix.sub sample_2x3 sample_2x3 = Ok d /\
    Matrix.add ta to = Matrix.transpose s /\
    Matrix.sub ta to = Matrix.transpose d.
Proof.
  assert (Matrix.wf sample_2x3) as Hwf by solve_wf.
  split; [exact Hwf|].
  exact (transpose_add_sub sample_2x3 sample_2x3 Hwf Hwf eq_refl eq_refl).
Defined.

Lemma map_spec (op : float -> float) a :
  Matrix.wf a ->
  exists w, Matrix.pointwise (Matrix.m a) (Matrix.n a) (fun i j =>
              do x <- Matrix.get a i j; Ok (op x)) = Ok w /\
    Matrix.wf w /\ Matrix.m w = Matrix.m a /\ Matrix.n w = Matrix.n a /\
    forall i j, 1 <= i <= Matrix.m a -> 1 <= j <= Matrix.n a ->
      exists x, Matrix.get a i j = Ok x /\ Matrix.get w i j = Ok (op x).
Proof.
  intros Ha. pose proof Ha as (Hm & Hn & _).
  destruct (pointwise_spec (Matrix.m a) (Matrix.n a)
              (fun i j => do x <- Matrix.get a i j; Ok (op x)))
    as (w & Hw & Hwf & Hmw & Hnw & Hget); try done.
  - intros i j Hi Hj.
    destruct (wf_get_in_range a i j Ha Hi Hj) as [x ->]. simpl. eauto.
  - exists w. split_and!; try done.
    intros i j Hi Hj. rewrite Hget by done.
    destruct (wf_get_in_range a i j Ha Hi Hj) as [x ->]. simpl. eauto.
Qed.

Lemma transpose_map (op : float -> float) a :
  Matrix.wf a ->
  exists ta w,
    Matrix.transpose a = Ok ta /\
    Matrix.pointwise (Matrix.m a) (Matrix.n a) (fun i j =>
      do x <- Matrix.get a i j; Ok (op x)) = Ok w /\
    Matrix.pointwise (Matrix.m ta) (Matrix.n ta) (fun i j =>
      do x <- Matrix.get ta i j; Ok (op x)) = Matrix.transpose w.
Proof.
  intros Ha.
  destruct (map_spec op a Ha) as (w & Hw & Hwfw & Hmw & Hnw & Hgw).
  destruct (transpose_spec a Ha) as (ta & Hta & Hwfta & Hmta & Hnta & Hgta).
  destruct (transpose_spec w Hwfw) as (tw & Htw & Hwftw & Hmtw & Hntw & Hgtw).
  destruct (map_spec op ta Hwfta) as (u & Hu & Hwfu & Hmu & Hnu & Hgu).
  exists ta, w. split_and!; try done.
  rewrite Hu, Htw. f_equal.
  apply matrix_ext_get; try done; try congruence.
  intros j i Hj Hi. rewrite Hmu, Hmta in Hj. rewrite Hnu, Hnta in Hi.
  destruct (Hgu j i) as (x & Hx & ->); [lia..|].
  rewrite Hgtw by lia.
  destruct (Hgw i j) as (x' & Hx' & ->); [lia..|].
  rewrite Hgta in Hx by lia. congruence.
Qed.

(** X23: for a well-formed matrix, transposing commutes with the scalar
    operators: [(a * s).t() = a.t() * s] and [(a / s).t() = a.t() / s]. *)
Theorem transpose_scale_div (a : Matrix.t) (s : float) :
  Matrix.wf a ->
  exists ta p q,
    Matrix.transpose a = Ok ta /\
    Matrix.scale a s = Ok p /\ Matrix.div a s = Ok q /\
    Matrix.scale ta s = Matrix.transpose p /\
    Matrix.div ta s = Matrix.transpose q.
Proof.
  intros Ha.
  destruct (transpose_map (fun x => s * x)%float a Ha) as (ta & p & Hta & Hp & Hscale).
  destruct (transpose_map (fun x => s / x)%float a Ha) as (ta' & q & Hta' & Hq & Hdiv).
  assert (ta' = ta) as -> by congruence.
  exists ta, p, q. split_and!; done.
Qed.

Lemma transpose_scale_div_witness :
  Matrix.wf sample_2x3 /\
  exists ta p q,
    Matrix.transpose sample_2x3 = Ok ta /\
    Matrix.scale sample_2x3 3 = Ok p /\ Matrix.div sample_2x3 3 = Ok q /\
    Matrix.scale ta 3 = Matrix.transpose p /\
    Matrix.div ta 3 = Matrix.transpose q.
Proof.
  assert (Matrix.wf sample_2x3) as Hwf by solve_wf.
  split; [exact Hwf|]. exact (transpose_scale_div sample_2x3 3%float Hwf).
Defined.
